(** * ad-detect: the chunk classification pipeline of [process_file.py]

    A shallow embedding of the per-file processing script: chunking of a
    decoded timeline, the classifier adapter, the forgiving heuristic that
    corrects short misclassified runs, and the reconstruction and export of
    the corrected chunks.  Definitions keep the names of the Python source
    and follow it statement by statement. *)

From Stdlib Require Import ZArith Ascii String.
From stdpp Require Import base list sorting gmap strings.

Local Open Scope Z_scope.
Local Open Scope nat_scope.

(** ** Labels and results *)

(** The two strings ['A'] and ['B'] the classifier can answer. *)
Inductive category : Type := A | B.

#[global] Instance category_eq_dec : EqDecision category.
Proof. solve_decision. Defined.

(** A prediction is ['A'], ['B'] or Python's [None]; [None] is the [None]
    that [run_inference] returns when no category was obtained. *)
Abbreviation label := (option category).

Abbreviation Unknown := (@None category).

(** Python's [==] on two predictions. *)
Definition label_eqb (x y : label) : bool := bool_decide (x = y).

(** The exceptions the modelled code can let escape. *)
Inductive exn : Type :=
  | IndexError
  | ZeroDivisionError
  | OSError.

Inductive result (T : Type) : Type :=
  | Ok (v : T)
  | Raise (e : exn).
Arguments Ok {T} v.
Arguments Raise {T} e.

(** ** The forgiving heuristic ([apply_forgiving_heuristic]) *)

(** A segment is the tuple [(label, indices)] of the source. *)
Abbreviation segment := (label * list nat)%type.

(** Step 1, the grouping loop [for i in range(1, len(predictions))]: [rest]
    is [predictions[i:]], so its head is [predictions[i]]. *)
Fixpoint group_from (i : nat) (rest : list label) (segments : list segment)
    (current_label : label) (current_indices : list nat)
    : list segment * label * list nat :=
  match rest with
  | [] => (segments, current_label, current_indices)
  | p :: rest' =>
      if label_eqb p current_label
      then group_from (S i) rest' segments current_label (current_indices ++ [i])
      else group_from (S i) rest' (segments ++ [(current_label, current_indices)]) p [i]
  end.

(** Step 1 as a whole, for a sequence whose first prediction is [p0]. *)
Definition group_segments (p0 : label) (rest : list label) : list segment :=
  let '(segments, current_label, current_indices) := group_from 1 rest [] p0 [0] in
  segments ++ [(current_label, current_indices)].

(** [new_label = 'B' if label == 'A' else 'A'] *)
Definition new_label (l : label) : label :=
  if label_eqb l (Some A) then Some B else Some A.

(** The body of the loop of step 2 at index [i]; it reads [segments[i]],
    [segments[i - 1]] and [segments[i + 1]] from the list as it stands and
    overwrites [segments[i]] in place. *)
Definition flip_step (min_surround_chunks max_flip_length : Z)
    (segments : list segment) (i : nat) : list segment :=
  match segments !! i, segments !! (i - 1), segments !! (i + 1) with
  | Some (l, indices), Some (prev_label, prev_indices), Some (next_label, next_indices) =>
      if (Z.of_nat (length indices) <=? max_flip_length)%Z
         && negb (label_eqb prev_label l) && negb (label_eqb next_label l)
      then
        if (min_surround_chunks <=? Z.of_nat (length prev_indices))%Z
           && (min_surround_chunks <=? Z.of_nat (length next_indices))%Z
        then <[i := (new_label l, indices)]> segments
        else segments
      else segments
  | _, _, _ => segments
  end.

(** Step 2: [for i in range(1, len(segments) - 1)]. *)
Definition flip_segments (min_surround_chunks max_flip_length : Z)
    (segments : list segment) : list segment :=
  foldl (flip_step min_surround_chunks max_flip_length) segments
        (seq 1 (length segments - 2)).

(** Step 3: every segment contributes its label once per index. *)
Definition expand_segments (segments : list segment) : list label :=
  flat_map (fun s : segment => map (fun _ : nat => fst s) (snd s)) segments.

(** [predictions[0]] raises [IndexError] on the empty list. *)
Definition apply_forgiving_heuristic (predictions : list label)
    (min_surround_chunks max_flip_length : Z) : result (list label) :=
  match predictions with
  | [] => Raise IndexError
  | p0 :: rest =>
      Ok (expand_segments
            (flip_segments min_surround_chunks max_flip_length
               (group_segments p0 rest)))
  end.

(** The segmentation of step 1 on its own (empty for the empty list, on which
    the source has already raised). *)
Definition segments_of (predictions : list label) : list segment :=
  match predictions with
  | [] => []
  | p0 :: rest => group_segments p0 rest
  end.

(** The test of the two nested [if]s of step 2, on the three segments read. *)
Definition should_flip (min_surround_chunks max_flip_length : Z)
    (prev cur next : segment) : bool :=
  ((Z.of_nat (length (snd cur)) <=? max_flip_length)%Z
   && negb (label_eqb (fst prev) (fst cur)) && negb (label_eqb (fst next) (fst cur)))
  && ((min_surround_chunks <=? Z.of_nat (length (snd prev)))%Z
      && (min_surround_chunks <=? Z.of_nat (length (snd next)))%Z).

(** What step 2 leaves at index [i] when it has read [prev], [cur], [next]. *)
Definition flipped_segment (min_surround_chunks max_flip_length : Z)
    (prev cur next : segment) : segment :=
  if should_flip min_surround_chunks max_flip_length prev cur next
  then (new_label (fst cur), snd cur)
  else cur.

(** The "other" operation of the binary label domain. *)
Definition other_category (c : category) : category :=
  match c with A => B | B => A end.

(** *** The single pass of the specification

    The reference pass the specification describes.  The decision at every
    interior segment is read from the unmodified list [original], only the
    result list is written, and the label of a segment that is flipped is
    replaced by the other category; a segment labelled Unknown has no other
    category and is never flipped. *)
Definition reference_segment (min_surround_chunks max_flip_length : Z)
    (prev cur next : segment) : segment :=
  match fst cur with
  | Some c =>
      if should_flip min_surround_chunks max_flip_length prev cur next
      then (Some (other_category c), snd cur)
      else cur
  | None => cur
  end.

Definition reference_step (min_surround_chunks max_flip_length : Z)
    (original : list segment) (segments : list segment) (i : nat) : list segment :=
  match original !! i, original !! (i - 1), original !! (i + 1) with
  | Some cur, Some prev, Some next =>
      <[i := reference_segment min_surround_chunks max_flip_length prev cur next]> segments
  | _, _, _ => segments
  end.

Definition reference_flip_segments (min_surround_chunks max_flip_length : Z)
    (segments : list segment) : list segment :=
  foldl (reference_step min_surround_chunks max_flip_length segments) segments
        (seq 1 (length segments - 2)).

Definition reference_heuristic (predictions : list label)
    (min_surround_chunks max_flip_length : Z) : result (list label) :=
  match predictions with
  | [] => Raise IndexError
  | p0 :: rest =>
      Ok (expand_segments
            (reference_flip_segments min_surround_chunks max_flip_length
               (group_segments p0 rest)))
  end.

(** The flip rule read on the maximal-run segmentation itself: the interior
    segment [i], labelled with a category, ends up with the other category
    exactly when it is short and its two neighbours in [segments_of], which
    carry other labels, are long. *)
Definition flip_rule_on_segmentation (predictions : list label)
    (min_surround_chunks max_flip_length : Z) (i : nat) : Prop :=
  forall (c : category) (indices : list nat) (prev next : segment),
    segments_of predictions !! i = Some (Some c, indices) ->
    segments_of predictions !! (i - 1) = Some prev ->
    segments_of predictions !! (i + 1) = Some next ->
    (flip_segments min_surround_chunks max_flip_length (segments_of predictions) !! i
       = Some (Some (other_category c), indices)
     <-> ((Z.of_nat (length indices) <= max_flip_length)%Z
          /\ fst prev <> Some c /\ fst next <> Some c
          /\ (min_surround_chunks <= Z.of_nat (length (snd prev)))%Z
          /\ (min_surround_chunks <= Z.of_nat (length (snd next)))%Z)).

(** Adjacent entries of a list differ. *)
Definition adjacent_differ {T : Type} (l : list T) : Prop :=
  forall (k : nat) (a b : T), l !! k = Some a -> l !! S k = Some b -> a <> b.

(** The indices of all segments, in order. *)
Definition segment_indices (segments : list segment) : list nat :=
  concat (map snd segments).

(** A loop body is local when it leaves the list alone or overwrites the entry
    at its own index. *)
Definition local_step (f : list segment -> nat -> list segment) : Prop :=
  forall (l : list segment) (i : nat), f l i = l \/ exists s, f l i = <[i := s]> l.

(** ** Audio ([pydub.AudioSegment]) at its millisecond interface

    [len(audio)] is a number of milliseconds and [audio[start:end]] slices by
    milliseconds, so a decoded timeline is a list with one element per
    millisecond; [+] on two segments is concatenation. *)
Definition AudioSegment (sample : Type) : Type := list sample.

Section Pipeline.
Context {sample : Type}.

Definition audio_len (audio : AudioSegment sample) : Z := Z.of_nat (length audio).

(** [audio[start_ms:end_ms]] for non-negative bounds; both bounds are clamped
    to [len(audio)]. *)
Definition audio_slice (audio : AudioSegment sample) (start_ms end_ms : Z)
    : AudioSegment sample :=
  let start := Z.min start_ms (audio_len audio) in
  let stop := Z.min end_ms (audio_len audio) in
  take (Z.to_nat (stop - start)) (drop (Z.to_nat start) audio).

(** The chunking part of [process_audio]: [num_chunks] by floor division
    ([ZeroDivisionError] on a zero chunk length), then one slice per
    [i in range(num_chunks)]. *)
Definition split_chunks (audio : AudioSegment sample) (chunk_length_sec : Z)
    : result (list (AudioSegment sample)) :=
  let total_length_ms := audio_len audio in
  let chunk_length_ms := (chunk_length_sec * 1000)%Z in
  if (chunk_length_ms =? 0)%Z then Raise ZeroDivisionError
  else
    let num_chunks := (total_length_ms / chunk_length_ms)%Z in
    Ok (map (fun i : nat =>
               let start_ms := (Z.of_nat i * chunk_length_ms)%Z in
               let end_ms := (start_ms + chunk_length_ms)%Z in
               audio_slice audio start_ms end_ms)
            (seq 0 (Z.to_nat num_chunks))).

(** ** The classifier adapter ([run_inference], [process_chunk]) *)

(** What [subprocess.run(..., check=True)] does at the oracle boundary: it
    returns with the captured standard output of a process that exited with
    status 0, raises [CalledProcessError] for a process that exited with
    another status, or raises another exception, such as the
    [FileNotFoundError] (an [OSError]) of a [python] that cannot be started. *)
Inductive subprocess_outcome : Type :=
  | Completed (stdout : string)
  | CalledProcessError
  | OtherException (e : exn).

(** The oracle: the outcome of the inference process on the temporary file
    that the call for chunk [i] wrote; the file is private to that call. *)
Variable oracle : nat -> AudioSegment sample -> subprocess_outcome.

(** The characters [str.strip()] removes from both ends of a string of ASCII
    characters; the whitespace Python knows outside ASCII is not part of the
    model, which stands for [str.strip()] on ASCII text. *)
Definition is_space (c : ascii) : bool :=
  let n := nat_of_ascii c in
  (Nat.leb 9 n && Nat.leb n 13) || (Nat.leb 28 n && Nat.leb n 32).

Fixpoint lstrip (s : string) : string :=
  match s with
  | String c s' => if is_space c then lstrip s' else s
  | EmptyString => EmptyString
  end.

Fixpoint string_rev (s : string) : string :=
  match s with
  | String c s' => (string_rev s' ++ String c EmptyString)%string
  | EmptyString => EmptyString
  end.

Definition strip (s : string) : string :=
  string_rev (lstrip (string_rev (lstrip s))).

(** Every character of the string is an ASCII character. *)
Fixpoint ascii_only (s : string) : bool :=
  match s with
  | String c s' => Nat.ltb (nat_of_ascii c) 128 && ascii_only s'
  | EmptyString => true
  end.

(** ['A' in output] for a one-character needle. *)
Fixpoint char_in (c : ascii) (s : string) : bool :=
  match s with
  | String c' s' => if Ascii.eqb c c' then true else char_in c s'
  | EmptyString => false
  end.

(** The [try] of [run_inference] has one handler, for [CalledProcessError];
    any other exception of [subprocess.run] leaves the function. *)
Definition run_inference (call : nat) (file : AudioSegment sample) : result label :=
  match oracle call file with
  | Completed stdout =>
      let output := strip stdout in
      if char_in "A"%char output then Ok (Some A)
      else if char_in "B"%char output then Ok (Some B)
      else Ok None
  | CalledProcessError => Ok None
  | OtherException e => Raise e
  end.

(** The failures [run_inference] answers with [None]: the process exited
    with an error status, or with status 0 and an output that holds neither
    an ['A'] nor a ['B']. *)
Definition contained_failure (outcome : subprocess_outcome) : Prop :=
  outcome = CalledProcessError \/
  exists stdout, outcome = Completed stdout
                 /\ char_in "A"%char (strip stdout) = false
                 /\ char_in "B"%char (strip stdout) = false.

(** Whether the temporary file of the call for chunk [i] can be created and
    the chunk exported to it, and whether [os.remove] on it succeeds; both
    raise [OSError] otherwise. *)
Variable temp_export_ok : nat -> bool.
Variable remove_ok : nat -> bool.

(** [process_chunk] has no handler: a failing export, an exception of
    [run_inference] and a failing [os.remove] all leave it. *)
Definition process_chunk (chunk_index : nat) (chunk : AudioSegment sample)
    : result (nat * label) :=
  if temp_export_ok chunk_index then
    match run_inference chunk_index chunk with
    | Ok predicted_class =>
        if remove_ok chunk_index then Ok (chunk_index, predicted_class)
        else Raise OSError
    | Raise e => Raise e
    end
  else Raise OSError.

(** The collection loop of [process_audio], entered with
    [predictions = [None] * num_chunks]: [predictions[chunk_index] =
    predicted_class] for each future in the order [completion_order] in which
    [as_completed] yields them; [future.result()] raises again what
    [process_chunk] raised, which ends the loop. *)
Fixpoint collect_from (chunks : list (AudioSegment sample)) (predictions : list label)
    (completion_order : list nat) : result (list label) :=
  match completion_order with
  | [] => Ok predictions
  | i :: completion_order' =>
      match chunks !! i with
      | Some chunk =>
          match process_chunk i chunk with
          | Ok (chunk_index, predicted_class) =>
              collect_from chunks (<[chunk_index := predicted_class]> predictions)
                completion_order'
          | Raise e => Raise e
          end
      | None => collect_from chunks predictions completion_order'
      end
  end.

Definition collect_predictions (chunks : list (AudioSegment sample))
    (completion_order : list nat) : result (list label) :=
  collect_from chunks (replicate (length chunks) None) completion_order.

(** ** Reconstruction and export ([reconstruct_audio]) *)

(** A file [export/<episode>/<dir>/chunk_<index>_<dir>.wav] and its content. *)
Record exported : Type := Exported {
  export_dir : category;
  export_index : nat;
  export_payload : AudioSegment sample
}.

(** Whether [chunk.export(chunk_path, format="wav")] succeeds for the file of
    directory [c] and index [i]; a failing export raises [OSError]. *)
Variable export_ok : category -> nat -> bool.

(** The loop [for i, chunk in enumerate(chunks)], with the files written so
    far threaded through; [chunks] is the part of the list not yet visited. *)
Fixpoint reconstruct_from (i : nat) (chunks : list (AudioSegment sample))
    (corrected_predictions : list label) (desired_label : label)
    (combined_audio : option (AudioSegment sample)) (files : list exported)
    : list exported * result (option (AudioSegment sample)) :=
  match chunks with
  | [] => (files, Ok combined_audio)
  | chunk :: chunks' =>
      match corrected_predictions !! i with
      | None => (files, Raise IndexError)
      | Some l =>
          let combined_audio :=
            if label_eqb l desired_label
            then match combined_audio with
                 | None => Some chunk
                 | Some track => Some (track ++ chunk)
                 end
            else combined_audio in
          match l with
          | Some c =>
              if export_ok c i
              then reconstruct_from (S i) chunks' corrected_predictions
                     desired_label combined_audio (files ++ [Exported c i chunk])
              else (files, Raise OSError)
          | None =>
              reconstruct_from (S i) chunks' corrected_predictions
                desired_label combined_audio files
          end
      end
  end.

Definition reconstruct_audio (corrected_predictions : list label)
    (chunks : list (AudioSegment sample)) (desired_label : label)
    : list exported * result (option (AudioSegment sample)) :=
  reconstruct_from 0 chunks corrected_predictions desired_label None [].

(** *** What the reconstruction is compared with *)

(** [enumerate(chunks)], counting from [i]. *)
Definition enumerate_from (i : nat) (chunks : list (AudioSegment sample))
    : list (nat * AudioSegment sample) :=
  zip (seq i (length chunks)) chunks.

(** The chunks, with their index, whose corrected label is [desired_label]. *)
Definition desired_chunks (corrected_predictions : list label)
    (desired_label : label) (indexed : list (nat * AudioSegment sample))
    : list (nat * AudioSegment sample) :=
  filter (fun ic => corrected_predictions !! ic.1 = Some desired_label) indexed.

(** The track obtained from [combined_audio] by appending [chunks] in turn. *)
Definition append_track (combined_audio : option (AudioSegment sample))
    (chunks : list (AudioSegment sample)) : option (AudioSegment sample) :=
  match combined_audio, chunks with
  | None, [] => None
  | None, _ :: _ => Some (concat chunks)
  | Some track, _ => Some (track ++ concat chunks)
  end.

(** The file a chunk is exported to: the directory of its corrected label
    when that is a category, no file otherwise. *)
Definition export_of (corrected_predictions : list label)
    (ic : nat * AudioSegment sample) : option exported :=
  match corrected_predictions !! ic.1 with
  | Some (Some c) => Some (Exported c ic.1 ic.2)
  | _ => None
  end.

Definition exports_of (corrected_predictions : list label)
    (indexed : list (nat * AudioSegment sample)) : list exported :=
  omap (export_of corrected_predictions) indexed.

(** The files written for the chunk of index [i]. *)
Definition files_of_chunk (files : list exported) (i : nat) : list exported :=
  filter (fun f => export_index f = i) files.

(** Every chunk has exactly one exported file, whatever its corrected label. *)
Definition every_chunk_exported_once (corrected_predictions : list label)
    (chunks : list (AudioSegment sample)) (desired_label : label) : Prop :=
  forall (i : nat) (chunk : AudioSegment sample),
    chunks !! i = Some chunk ->
    exists f,
      files_of_chunk (reconstruct_audio corrected_predictions chunks desired_label).1 i = [f]
      /\ export_payload f = chunk.

(** The sum of the durations of a list of chunks. *)
Definition total_duration (chunks : list (AudioSegment sample)) : Z :=
  foldr (fun chunk acc => (audio_len chunk + acc)%Z) 0%Z chunks.

(** ** The end of [process_audio] *)

(** What the last lines of [process_audio] do with [combined_audio]. *)
Inductive report : Type :=
  | CombinedSaved (track : AudioSegment sample)
  | CombinedSaveFailed
  | NoSegmentsFound.

(** Whether [combined_audio.export(output_file, format='wav')] succeeds. *)
Variable output_ok : bool.

(** [if combined_audio:] is false for [None] and for a track of length 0; the
    export of the track sits in a [try] whose handler prints the error. *)
Definition save_combined (combined_audio : option (AudioSegment sample)) : report :=
  match combined_audio with
  | Some track =>
      if (0 <? audio_len track)%Z
      then if output_ok then CombinedSaved track else CombinedSaveFailed
      else NoSegmentsFound
  | None => NoSegmentsFound
  end.

(** [process_audio] from the classified chunks on: the heuristic with its
    default parameters, the reconstruction for ['B'], the final export. *)
Definition correct_and_reconstruct (predictions : list label)
    (chunks : list (AudioSegment sample)) : list exported * result report :=
  match apply_forgiving_heuristic predictions 3 2 with
  | Raise e => ([], Raise e)
  | Ok corrected_predictions =>
      match reconstruct_audio corrected_predictions chunks (Some B) with
      | (files, Raise e) => (files, Raise e)
      | (files, Ok combined_audio) => (files, Ok (save_combined combined_audio))
      end
  end.

Definition process_audio (audio : AudioSegment sample) (chunk_length_sec : Z)
    (completion_order : list nat) : list exported * result report :=
  match split_chunks audio chunk_length_sec with
  | Raise e => ([], Raise e)
  | Ok chunks =>
      match collect_predictions chunks completion_order with
      | Raise e => ([], Raise e)
      | Ok predictions => correct_and_reconstruct predictions chunks
      end
  end.

End Pipeline.

(** * [cut_segments.py]: manual cutting at given split points *)

(** What a function of [cut_segments.py] can end with besides a value:
    [sys.exit(code)], or an exception nobody catches. *)
Inductive py_exception : Type := ValueError | OverflowError.

Inductive outcome (T : Type) : Type :=
  | Returned (v : T)
  | Exited (code : Z)
  | Raised (e : py_exception).
Arguments Returned {T} v.
Arguments Exited {T} code.
Arguments Raised {T} e.

(** [s.split(sep)] for a one-character separator. *)
Fixpoint split_on (sep : ascii) (s : string) : list string :=
  match s with
  | EmptyString => [EmptyString]
  | String c s' =>
      if Ascii.eqb c sep then EmptyString :: split_on sep s'
      else match split_on sep s' with
           | part :: parts => String c part :: parts
           | [] => [String c EmptyString]
           end
  end.

(** The group of [re.match(r'\[(.*?)\]', header)]: the characters between a
    leading ['['] and the first [']'], none of them a newline. *)
Fixpoint until_bracket (s : string) : option string :=
  match s with
  | EmptyString => None
  | String c s' =>
      if Ascii.eqb c "]"%char then Some EmptyString
      else if Ascii.eqb c "010"%char then None
      else option_map (String c) (until_bracket s')
  end.

Definition match_header (header : string) : option string :=
  match header with
  | String c rest => if Ascii.eqb c "["%char then until_bracket rest else None
  | EmptyString => None
  end.

(** [range(0, n, 6)] *)
Definition block_starts (n : nat) : list nat :=
  map (fun k => 6 * k) (seq 0 ((n + 5) / 6)).

Section ParseSegments.

(** Python's floats and the built-ins used on them are parameters: [int(s)]
    and [float(s)] ([None] for [ValueError]), the sum of an [int] and a
    [float] ([None] for the [OverflowError] of an [int] too large to
    convert), the product with [1000], and [sorted]. *)
Variable float : Type.
Variable py_int : string -> option Z.
Variable py_float : string -> option float.
Variable add_int_float : Z -> float -> option float.
Variable mul_1000 : float -> float.
Variable sorted : list float -> list float.

(** [convert_time_to_seconds]: a [ValueError] inside the [try], raised by the
    function itself or by [int] or [float], ends in [sys.exit(1)]. *)
Definition convert_time_to_seconds (time_str : string) : outcome float :=
  let parts := split_on ":"%char time_str in
  let fields :=
    match parts with
    | [hours; minutes; seconds] => Some (py_int hours, py_int minutes, seconds)
    | [minutes; seconds] => Some (Some 0%Z, py_int minutes, seconds)
    | [seconds] => Some (Some 0%Z, Some 0%Z, seconds)
    | _ => None
    end in
  match fields with
  | None => Exited 1
  | Some (hours, minutes, seconds) =>
      match hours, minutes, py_float seconds with
      | Some h, Some m, Some sec =>
          match add_int_float (h * 3600 + m * 60)%Z sec with
          | Some total_seconds => Returned total_seconds
          | None => Raised OverflowError
          end
      | _, _, _ => Exited 1
      end
  end.

(** The body of [for j in range(1, 6)] in [parse_segments]. *)
Definition parse_range (lines : list string) (i j : nat) (timestamps : list float)
    : outcome (list float) :=
  match lines !! (i + j) with
  | None => Exited 1
  | Some line =>
      let time_range := strip line in
      if negb (char_in "-"%char time_range) then Exited 1
      else
        match split_on "-"%char time_range with
        | [start; stop] =>
            match convert_time_to_seconds start with
            | Returned start_sec =>
                match convert_time_to_seconds stop with
                | Returned end_sec =>
                    Returned (timestamps ++ [mul_1000 start_sec; mul_1000 end_sec])
                | Exited code => Exited code
                | Raised e => Raised e
                end
            | Exited code => Exited code
            | Raised e => Raised e
            end
        | _ => Raised ValueError
        end
  end.

Fixpoint parse_ranges (lines : list string) (i : nat) (js : list nat)
    (timestamps : list float) : outcome (list float) :=
  match js with
  | [] => Returned timestamps
  | j :: js' =>
      match parse_range lines i j timestamps with
      | Returned timestamps' => parse_ranges lines i js' timestamps'
      | Exited code => Exited code
      | Raised e => Raised e
      end
  end.

(** The body of [for i in range(0, len(lines), 6)];
    [timestamps[1:-1]] drops the first and the last element. *)
Definition parse_block (lines : list string) (segments_dict : gmap string (list float))
    (i : nat) : outcome (gmap string (list float)) :=
  match lines !! i with
  | None => Returned segments_dict
  | Some line =>
      let header := strip line in
      match match_header header with
      | Some filename =>
          match parse_ranges lines i [1; 2; 3; 4; 5] [] with
          | Returned timestamps =>
              if decide (length timestamps < 2) then Returned segments_dict
              else
                let split_points := sorted (drop 1 (take (length timestamps - 1) timestamps)) in
                Returned (<[filename := split_points]> segments_dict)
          | Exited code => Exited code
          | Raised e => Raised e
          end
      | None => Returned segments_dict
      end
  end.

Fixpoint parse_blocks (lines : list string) (starts : list nat)
    (segments_dict : gmap string (list float)) : outcome (gmap string (list float)) :=
  match starts with
  | [] => Returned segments_dict
  | i :: starts' =>
      match parse_block lines segments_dict i with
      | Returned segments_dict' => parse_blocks lines starts' segments_dict'
      | Exited code => Exited code
      | Raised e => Raised e
      end
  end.

(** [parse_segments], on the lines [f.readlines()] has read. *)
Definition parse_segments (lines : list string) : outcome (gmap string (list float)) :=
  parse_blocks lines (block_starts (length lines)) ∅.

(** The loop of [parse_segments] entered with a dictionary that is not empty. *)
Definition parse_segments_from (segments_dict : gmap string (list float))
    (lines : list string) : outcome (gmap string (list float)) :=
  parse_blocks lines (block_starts (length lines)) segments_dict.

End ParseSegments.

Section SplitAudio.
Context {sample : Type}.

(** The splitting part of [split_audio] for one loaded file, with split points
    in whole milliseconds: [split_points = [0] + split_points + [len(audio)]],
    then one slice per pair of consecutive points.  The slices are those of
    the millisecond interface; what pydub does below a millisecond (the
    rounding of [len] and the frames of the last slice) is not part of it. *)
Definition split_segments (audio : AudioSegment sample) (split_points : list Z)
    : list (AudioSegment sample) :=
  let split_points := [0%Z] ++ split_points ++ [audio_len audio] in
  map (fun idx : nat =>
         let start_ms := split_points !!! idx in
         let end_ms := split_points !!! (idx + 1) in
         audio_slice audio start_ms end_ms)
      (seq 0 (length split_points - 1)).

(** What the saving loop prints for a segment. *)
Inductive save_message : Type :=
  | SavedSegment (idx : nat)
  | ErrorSaving (idx : nat).

(** Whether [segment.export(output_path, format="wav")] succeeds for the
    segment numbered [idx]. *)
Variable segment_ok : nat -> bool.

(** [for idx, segment in enumerate(segments, start=1)], each export in its own
    [try]: the files written and the lines printed. *)
Fixpoint save_segments (idx : nat) (segments : list (AudioSegment sample))
    (files : list (nat * AudioSegment sample)) (log : list save_message)
    : list (nat * AudioSegment sample) * list save_message :=
  match segments with
  | [] => (files, log)
  | segment :: segments' =>
      if segment_ok idx
      then save_segments (S idx) segments' (files ++ [(idx, segment)])
             (log ++ [SavedSegment idx])
      else save_segments (S idx) segments' files (log ++ [ErrorSaving idx])
  end.

(** [split_audio] for one file that exists and loads. *)
Definition split_file (audio : AudioSegment sample) (split_points : list Z)
    : list (nat * AudioSegment sample) * list save_message :=
  save_segments 1 (split_segments audio split_points) [] [].

End SplitAudio.

(** * Properties *)

(** ** Labels *)

Lemma label_eqb_eq (x y : label) : label_eqb x y = true <-> x = y.
Proof. unfold label_eqb. apply bool_decide_eq_true. Qed.

Lemma label_eqb_neq (x y : label) : label_eqb x y = false <-> x <> y.
Proof. unfold label_eqb. apply bool_decide_eq_false. Qed.

Lemma new_label_category (c : category) : new_label (Some c) = Some (other_category c).
Proof. by destruct c. Qed.

Lemma other_category_neq (c : category) : other_category c <> c.
Proof. by destruct c. Qed.

(** ** Step 1: the segmentation *)

Lemma expand_segments_app (s1 s2 : list segment) :
  expand_segments (s1 ++ s2) = expand_segments s1 ++ expand_segments s2.
Proof. unfold expand_segments. apply flat_map_app. Qed.

Lemma segment_indices_app (s1 s2 : list segment) :
  segment_indices (s1 ++ s2) = segment_indices s1 ++ segment_indices s2.
Proof. unfold segment_indices. by rewrite map_app, concat_app. Qed.

Lemma length_expand_segments (segments : list segment) :
  length (expand_segments segments) = length (segment_indices segments).
Proof.
  unfold expand_segments, segment_indices.
  induction segments as [|[l idx] segments IH]; simpl; [done|].
  by rewrite !length_app, length_map, IH.
Qed.

Lemma group_from_indices (rest : list label) : forall i segments cl ci segments' cl' ci',
  group_from i rest segments cl ci = (segments', cl', ci') ->
  segment_indices segments' ++ ci'
  = segment_indices segments ++ ci ++ seq i (length rest).
Proof.
  induction rest as [|p rest IH]; intros i segments cl ci segments' cl' ci' H; simpl in H.
  - inversion H; subst. by rewrite app_nil_r.
  - destruct (label_eqb p cl); apply IH in H; rewrite H; simpl.
    + by rewrite <- app_assoc.
    + rewrite segment_indices_app. unfold segment_indices at 2. simpl.
      by rewrite app_nil_r, <- app_assoc.
Qed.

Lemma group_from_expand (rest : list label) : forall i segments cl ci segments' cl' ci',
  group_from i rest segments cl ci = (segments', cl', ci') ->
  expand_segments (segments' ++ [(cl', ci')])
  = expand_segments (segments ++ [(cl, ci)]) ++ rest.
Proof.
  induction rest as [|p rest IH]; intros i segments cl ci segments' cl' ci' H; simpl in H.
  - inversion H; subst. by rewrite app_nil_r.
  - destruct (label_eqb p cl) eqn:E; apply IH in H; rewrite H.
    + apply label_eqb_eq in E. subst p.
      rewrite !expand_segments_app. unfold expand_segments; simpl.
      rewrite !app_nil_r, map_app. simpl. by rewrite <- !app_assoc.
    + rewrite !expand_segments_app. unfold expand_segments; simpl.
      by rewrite <- !app_assoc.
Qed.

Lemma group_from_nonempty (rest : list label) : forall i segments cl ci segments' cl' ci',
  group_from i rest segments cl ci = (segments', cl', ci') ->
  Forall (fun s : segment => snd s <> []) (segments ++ [(cl, ci)]) ->
  Forall (fun s : segment => snd s <> []) (segments' ++ [(cl', ci')]).
Proof.
  induction rest as [|p rest IH]; intros i segments cl ci segments' cl' ci' H HF; simpl in H.
  - by inversion H; subst.
  - destruct (label_eqb p cl); apply IH in H; [done| |done|].
    + apply Forall_app in HF as [HF _]. apply Forall_app. split; [done|].
      constructor; [|done]. simpl. by destruct ci.
    + apply Forall_app. split; [done|]. by constructor.
Qed.

Lemma adjacent_differ_snoc {T : Type} (l : list T) (a b : T) :
  adjacent_differ (l ++ [a]) -> a <> b -> adjacent_differ ((l ++ [a]) ++ [b]).
Proof.
  intros Hl Hab k x y Hx Hy.
  destruct (decide (S k < length (l ++ [a]))) as [Hlt|Hge].
  - rewrite lookup_app_l in Hx by lia. rewrite lookup_app_l in Hy by lia. eauto.
  - assert (k < length (l ++ [a])) as Hk.
    { apply lookup_lt_Some in Hy. rewrite !length_app in *. simpl in *. lia. }
    rewrite length_app in Hge, Hk. simpl in Hge, Hk.
    assert (k = length l) as -> by lia.
    rewrite lookup_app_l in Hx by (rewrite length_app; simpl; lia).
    rewrite lookup_app_r in Hx by lia.
    rewrite lookup_app_r in Hy by (rewrite length_app; simpl; lia).
    rewrite length_app in Hy. simpl in Hy.
    replace (length l - length l) with 0 in Hx by lia.
    replace (S (length l) - (length l + 1)) with 0 in Hy by lia.
    simpl in Hx, Hy. congruence.
Qed.

Lemma group_from_adjacent (rest : list label) : forall i segments cl ci segments' cl' ci',
  group_from i rest segments cl ci = (segments', cl', ci') ->
  adjacent_differ (map fst (segments ++ [(cl, ci)])) ->
  adjacent_differ (map fst (segments' ++ [(cl', ci')])).
Proof.
  induction rest as [|p rest IH]; intros i segments cl ci segments' cl' ci' H HA; simpl in H.
  - by inversion H; subst.
  - destruct (label_eqb p cl) eqn:E; apply IH in H; [done| |done|].
    + by rewrite map_app in *.
    + apply label_eqb_neq in E.
      rewrite (map_app _ (segments ++ _)). simpl.
      rewrite map_app in *. simpl in *. by apply adjacent_differ_snoc.
Qed.

(** The segmentation expands back to the predictions it was built from. *)
Lemma expand_group_segments (p0 : label) (rest : list label) :
  expand_segments (group_segments p0 rest) = p0 :: rest.
Proof.
  unfold group_segments.
  destruct (group_from 1 rest [] p0 [0]) as [[segments cl] ci] eqn:E.
  by apply group_from_expand in E.
Qed.

Lemma indices_group_segments (p0 : label) (rest : list label) :
  segment_indices (group_segments p0 rest) = seq 0 (S (length rest)).
Proof.
  unfold group_segments.
  destruct (group_from 1 rest [] p0 [0]) as [[segments cl] ci] eqn:E.
  apply group_from_indices in E.
  rewrite segment_indices_app. unfold segment_indices at 2. simpl.
  by rewrite app_nil_r, E.
Qed.

Lemma nonempty_group_segments (p0 : label) (rest : list label) :
  Forall (fun s : segment => snd s <> []) (group_segments p0 rest).
Proof.
  unfold group_segments.
  destruct (group_from 1 rest [] p0 [0]) as [[segments cl] ci] eqn:E.
  apply group_from_nonempty in E; [done|]. by constructor.
Qed.

Lemma adjacent_group_segments (p0 : label) (rest : list label) :
  adjacent_differ (map fst (group_segments p0 rest)).
Proof.
  unfold group_segments.
  destruct (group_from 1 rest [] p0 [0]) as [[segments cl] ci] eqn:E.
  apply group_from_adjacent in E; [done|].
  intros k a b Ha Hb. by destruct k.
Qed.

(** The label that [expand_segments] puts at an index is the label of the
    segment holding that index, when the segments hold [0 .. n-1] in order. *)
Lemma expand_segments_lookup (segments : list segment) (n k : nat) (l : label)
    (indices : list nat) (j : nat) :
  segment_indices segments = seq 0 n ->
  segments !! k = Some (l, indices) ->
  j ∈ indices ->
  expand_segments segments !! j = Some l.
Proof.
  intros Hseq Hk Hj.
  apply list_elem_of_lookup in Hj as [m Hm].
  pose proof (lookup_lt_Some _ _ _ Hm) as Hlt.
  apply list_elem_of_split_length in Hk as (before & after & -> & ->).
  rewrite segment_indices_app in Hseq.
  assert (j = length (segment_indices before) + m) as ->.
  { assert ((segment_indices before ++ segment_indices ((l, indices) :: after))
              !! (length (segment_indices before) + m) = Some j) as Hpos.
    { rewrite lookup_app_r by lia.
      replace (_ + m - _) with m by lia.
      unfold segment_indices at 1. simpl. by rewrite lookup_app_l. }
    rewrite Hseq in Hpos. by apply lookup_seq in Hpos as [Hpos _]. }
  rewrite expand_segments_app.
  rewrite lookup_app_r by (rewrite length_expand_segments; lia).
  rewrite length_expand_segments.
  replace (_ + m - _) with m by lia.
  unfold expand_segments at 1. simpl.
  rewrite lookup_app_l by (by rewrite length_map).
  by rewrite list_lookup_fmap, Hm.
Qed.

(** ** Step 2: the flipping loop *)

Section LocalStep.
Variable f : list segment -> nat -> list segment.
Hypothesis f_local : local_step f.

Lemma local_step_length (l : list segment) (i : nat) : length (f l i) = length l.
Proof. destruct (f_local l i) as [->|(s & ->)]; [done|apply length_insert]. Qed.

Lemma local_step_other (l : list segment) (i j : nat) : i <> j -> f l i !! j = l !! j.
Proof.
  intros Hne. destruct (f_local l i) as [->|(s & ->)]; [done|].
  by apply list_lookup_insert_ne.
Qed.

Lemma foldl_local_length (js : list nat) : forall l, length (foldl f l js) = length l.
Proof.
  induction js as [|i js IH]; intros l; simpl; [done|].
  by rewrite IH, local_step_length.
Qed.

Lemma foldl_local_other (js : list nat) (j : nat) : forall l,
  j ∉ js -> foldl f l js !! j = l !! j.
Proof.
  induction js as [|i js IH]; intros l Hj; simpl; [done|].
  apply not_elem_of_cons in Hj as [Hne Hj].
  rewrite IH by done. by apply local_step_other.
Qed.

(** In a pass over [1 .. n] the entry at [i] is the one the body leaves there
    when it runs after the entries before [i] have been treated. *)
Lemma foldl_local_at (n i : nat) (l : list segment) :
  1 <= i <= n ->
  foldl f l (seq 1 n) !! i = f (foldl f l (seq 1 (i - 1))) i !! i.
Proof.
  intros Hi.
  replace n with ((i - 1) + (1 + (n - i))) at 1 by lia.
  rewrite seq_app, foldl_app, seq_app, foldl_app. simpl.
  replace (S (i - 1)) with i by lia.
  apply foldl_local_other. rewrite elem_of_seq. lia.
Qed.

(** ... and the entries before [i] are final by then. *)
Lemma foldl_local_before (n i j : nat) (l : list segment) :
  1 <= i <= n -> j < i ->
  foldl f l (seq 1 (i - 1)) !! j = foldl f l (seq 1 n) !! j.
Proof.
  intros Hi Hj.
  replace n with ((i - 1) + (n - (i - 1))) by lia.
  rewrite seq_app, foldl_app. symmetry.
  apply foldl_local_other. rewrite elem_of_seq. lia.
Qed.

End LocalStep.

Lemma flip_step_insert (mn mx : Z) (segments : list segment) (i : nat)
    (prev cur next : segment) :
  segments !! i = Some cur ->
  segments !! (i - 1) = Some prev ->
  segments !! (i + 1) = Some next ->
  flip_step mn mx segments i = <[i := flipped_segment mn mx prev cur next]> segments.
Proof.
  intros Hc Hp Hn. unfold flip_step, flipped_segment, should_flip.
  rewrite Hc, Hp, Hn. destruct cur as [l idx], prev as [pl pidx], next as [nl nidx]. simpl.
  destruct (Z.of_nat (length idx) <=? mx)%Z, (label_eqb pl l), (label_eqb nl l),
    (mn <=? Z.of_nat (length pidx))%Z, (mn <=? Z.of_nat (length nidx))%Z;
    simpl; try done; symmetry; by apply list_insert_id.
Qed.

(** Either nothing is written, or the label of [segments[i]] is replaced. *)
Lemma flip_step_cases (mn mx : Z) (l : list segment) (i : nat) :
  flip_step mn mx l i = l \/
  exists cur, l !! i = Some cur /\ flip_step mn mx l i = <[i := (new_label (fst cur), snd cur)]> l.
Proof.
  unfold flip_step.
  destruct (l !! i) as [[lb idx]|] eqn:Hc; [|by left].
  destruct (l !! (i - 1)) as [[pl pidx]|]; [|by left].
  destruct (l !! (i + 1)) as [[nl nidx]|]; [|by left].
  destruct (_ && _ && _); [|by left]. destruct (_ && _); [|by left].
  right. by exists (lb, idx).
Qed.

Lemma flip_step_local (mn mx : Z) : local_step (flip_step mn mx).
Proof.
  intros l i. destruct (flip_step_cases mn mx l i) as [?|(cur & _ & ?)]; eauto.
Qed.

Lemma map_snd_insert (l : list segment) (s cur : segment) : forall i,
  l !! i = Some cur -> snd s = snd cur -> map snd (<[i := s]> l) = map snd l.
Proof.
  induction l as [|x l IH]; intros [|i] H Hs; simpl in *; try done.
  - inversion H; subst. by rewrite Hs.
  - f_equal. by apply IH.
Qed.

Lemma flip_step_indices (mn mx : Z) (l : list segment) (i : nat) :
  map snd (flip_step mn mx l i) = map snd l.
Proof.
  destruct (flip_step_cases mn mx l i) as [->|(cur & Hc & ->)]; [done|].
  by eapply map_snd_insert.
Qed.

Lemma flip_segments_indices (mn mx : Z) (segments : list segment) :
  map snd (flip_segments mn mx segments) = map snd segments.
Proof.
  unfold flip_segments. generalize (seq 1 (length segments - 2)) as js.
  intros js. revert segments.
  induction js as [|i js IH]; intros l; simpl; [done|].
  by rewrite IH, flip_step_indices.
Qed.

Lemma flip_segments_length (mn mx : Z) (segments : list segment) :
  length (flip_segments mn mx segments) = length segments.
Proof. apply foldl_local_length, flip_step_local. Qed.

(** The first and the last entry are outside the range of the loop. *)
Lemma flip_segments_outside (mn mx : Z) (segments : list segment) (j : nat) :
  j = 0 \/ length segments <= S j ->
  flip_segments mn mx segments !! j = segments !! j.
Proof.
  intros Hj. apply foldl_local_other; [apply flip_step_local|].
  rewrite elem_of_seq. lia.
Qed.

(** An interior entry is decided from its own original value, the final value
    of the entry before it, and the original value of the entry after it. *)
Lemma flip_segments_interior (mn mx : Z) (segments : list segment) (i : nat)
    (prev cur next : segment) :
  0 < i ->
  segments !! i = Some cur ->
  segments !! (i + 1) = Some next ->
  flip_segments mn mx segments !! (i - 1) = Some prev ->
  flip_segments mn mx segments !! i = Some (flipped_segment mn mx prev cur next).
Proof.
  intros Hi Hc Hn Hp.
  pose proof (lookup_lt_Some _ _ _ Hn) as Hlen.
  pose proof (flip_step_local mn mx) as Hloc.
  unfold flip_segments in *.
  assert (1 <= i <= length segments - 2) as Hr by lia.
  rewrite foldl_local_at by done.
  rewrite <- (foldl_local_before _ Hloc _ i (i - 1)) in Hp by lia.
  set (done_before := foldl (flip_step mn mx) segments (seq 1 (i - 1))) in *.
  assert (done_before !! i = Some cur) as Hc'.
  { unfold done_before. rewrite foldl_local_other; [done|done|]. rewrite elem_of_seq. lia. }
  assert (done_before !! (i + 1) = Some next) as Hn'.
  { unfold done_before. rewrite foldl_local_other; [done|done|]. rewrite elem_of_seq. lia. }
  rewrite (flip_step_insert _ _ _ _ _ _ _ Hc' Hp Hn').
  apply list_lookup_insert_eq. by eapply lookup_lt_Some.
Qed.

Lemma flip_segments_segment_indices (mn mx : Z) (segments : list segment) :
  segment_indices (flip_segments mn mx segments) = segment_indices segments.
Proof. unfold segment_indices. by rewrite flip_segments_indices. Qed.

Lemma flip_segments_same_indices (mn mx : Z) (segments : list segment) (k : nat)
    (s s' : segment) :
  segments !! k = Some s ->
  flip_segments mn mx segments !! k = Some s' ->
  snd s' = snd s.
Proof.
  intros Hs Hs'.
  assert (map snd (flip_segments mn mx segments) !! k = Some (snd s')) as H1
    by (by rewrite list_lookup_fmap, Hs').
  rewrite flip_segments_indices, list_lookup_fmap, Hs in H1. by inversion H1.
Qed.

(** The corrected label of a chunk is the final label of its segment. *)
Lemma corrected_lookup (p0 : label) (rest : list label) (mn mx : Z) (k : nat)
    (l : label) (indices : list nat) (j : nat) :
  flip_segments mn mx (group_segments p0 rest) !! k = Some (l, indices) ->
  j ∈ indices ->
  expand_segments (flip_segments mn mx (group_segments p0 rest)) !! j = Some l.
Proof.
  intros Hk Hj. eapply expand_segments_lookup; [|done|done].
  rewrite flip_segments_segment_indices. apply indices_group_segments.
Qed.

(** The raw label of a chunk is the label of its segment. *)
Lemma predictions_lookup (p0 : label) (rest : list label) (k : nat)
    (l : label) (indices : list nat) (j : nat) :
  group_segments p0 rest !! k = Some (l, indices) ->
  j ∈ indices ->
  (p0 :: rest) !! j = Some l.
Proof.
  intros Hk Hj. rewrite <- expand_group_segments.
  eapply expand_segments_lookup; [apply indices_group_segments|done|done].
Qed.

(** Every segment holds a run of consecutive indices that starts where the
    segments before it end. *)
Lemma segment_contiguous (segments : list segment) (n k : nat) (l : label)
    (indices : list nat) :
  segment_indices segments = seq 0 n ->
  segments !! k = Some (l, indices) ->
  indices = seq (length (segment_indices (take k segments))) (length indices).
Proof.
  intros Hseq Hk.
  pose proof (lookup_lt_Some _ _ _ Hk) as Hlt.
  apply list_elem_of_split_length in Hk as (before & after & -> & ->).
  rewrite take_app_length.
  rewrite segment_indices_app in Hseq.
  unfold segment_indices at 2 in Hseq. simpl in Hseq.
  fold (segment_indices after) in Hseq.
  apply list_eq. intros m.
  destruct (decide (m < length indices)) as [Hm|Hm].
  - rewrite lookup_seq_lt by done.
    assert ((segment_indices before ++ indices ++ segment_indices after)
              !! (length (segment_indices before) + m) = indices !! m) as Hpos.
    { rewrite lookup_app_r by lia.
      replace (_ + m - _) with m by lia. by rewrite lookup_app_l. }
    rewrite Hseq in Hpos.
    destruct (indices !! m) as [j|] eqn:Hj.
    + apply lookup_seq in Hpos as [-> _]. done.
    + apply lookup_ge_None in Hj. lia.
  - rewrite lookup_seq_ge by lia. apply lookup_ge_None. lia.
Qed.

Lemma segment_of_index (segments : list segment) (j : nat) :
  j ∈ segment_indices segments ->
  exists k l indices, segments !! k = Some (l, indices) /\ j ∈ indices.
Proof.
  unfold segment_indices.
  induction segments as [|[l idx] segments IH]; simpl; [by intros ?%elem_of_nil|].
  rewrite elem_of_app. intros [Hj|Hj].
  - by exists 0, l, idx.
  - destruct (IH Hj) as (k & l' & idx' & Hk & Hj'). by exists (S k), l', idx'.
Qed.

(** The label of a segment is the prediction of one of its chunks. *)
Lemma segment_label_is_prediction (p0 : label) (rest : list label) (k : nat)
    (l : label) (indices : list nat) :
  group_segments p0 rest !! k = Some (l, indices) -> l ∈ p0 :: rest.
Proof.
  intros Hk.
  pose proof (nonempty_group_segments p0 rest) as Hne.
  rewrite Forall_lookup in Hne. specialize (Hne k _ Hk). simpl in Hne.
  destruct indices as [|j indices]; [done|].
  apply list_elem_of_lookup. exists j.
  eapply predictions_lookup; [done|]. by left.
Qed.

(** The heuristic returns as many labels as it was given. *)
Lemma heuristic_length (predictions corrected : list label) (mn mx : Z) :
  apply_forgiving_heuristic predictions mn mx = Ok corrected ->
  length corrected = length predictions.
Proof.
  destruct predictions as [|p0 rest]; [done|]. intros [= <-].
  rewrite length_expand_segments, flip_segments_segment_indices,
    indices_group_segments. by rewrite length_seq.
Qed.

(** ** The heuristic: claims *)

(** C10: for a non-empty prediction sequence of length N, the segments hold
    the indices 0 .. N-1 exactly once and in order; every segment is a
    non-empty run of consecutive indices whose predictions all carry the
    segment's label, and adjacent segments carry different labels, so the runs
    are maximal; the corrected sequence is returned and has length N. *)
Theorem segmentation_partitions_indices (p0 : label) (rest : list label) (mn mx : Z) :
  let predictions := p0 :: rest in
  let segments := segments_of predictions in
  segment_indices segments = seq 0 (length predictions)
  /\ Forall (fun s : segment => snd s <> []) segments
  /\ (forall k l indices, segments !! k = Some (l, indices) ->
        indices = seq (length (segment_indices (take k segments))) (length indices))
  /\ (forall k l indices j, segments !! k = Some (l, indices) -> j ∈ indices ->
        predictions !! j = Some l)
  /\ adjacent_differ (map fst segments)
  /\ exists corrected,
       apply_forgiving_heuristic predictions mn mx = Ok corrected
       /\ length corrected = length predictions.
Proof.
  simpl. repeat split.
  - apply indices_group_segments.
  - apply nonempty_group_segments.
  - intros k l indices Hk. eapply segment_contiguous; [apply indices_group_segments|done].
  - intros k l indices j Hk Hj. by eapply predictions_lookup.
  - apply adjacent_group_segments.
  - eexists. split; [done|]. by eapply (heuristic_length (p0 :: rest)).
Qed.

(** C9: the first and the last segment keep their label whatever their
    length, so every chunk of the first or of the last run keeps its
    prediction; [A,B,B,B] is returned unchanged. *)
Theorem first_and_last_segment_kept (p0 : label) (rest : list label) (mn mx : Z) :
  let predictions := p0 :: rest in
  let segments := segments_of predictions in
  let flipped := flip_segments mn mx segments in
  flipped !! 0 = segments !! 0
  /\ flipped !! (length segments - 1) = segments !! (length segments - 1)
  /\ (exists corrected,
        apply_forgiving_heuristic predictions mn mx = Ok corrected
        /\ forall k l indices j,
             k = 0 \/ k = length segments - 1 ->
             segments !! k = Some (l, indices) -> j ∈ indices ->
             corrected !! j = predictions !! j)
  /\ apply_forgiving_heuristic [Some A; Some B; Some B; Some B] 3 2
     = Ok [Some A; Some B; Some B; Some B].
Proof.
  simpl. split; [|split; [|split]].
  - apply flip_segments_outside. by left.
  - apply flip_segments_outside. right. lia.
  - eexists. split; [done|]. intros k l indices j Hk Hs Hj.
    rewrite (predictions_lookup _ _ _ _ _ _ Hs Hj).
    eapply corrected_lookup; [|done].
    rewrite flip_segments_outside; [done|]. lia.
  - reflexivity.
Qed.

Lemma should_flip_true (mn mx : Z) (prev cur next : segment) :
  should_flip mn mx prev cur next = true <->
  ((Z.of_nat (length (snd cur)) <= mx)%Z
   /\ fst prev <> fst cur /\ fst next <> fst cur
   /\ (mn <= Z.of_nat (length (snd prev)))%Z
   /\ (mn <= Z.of_nat (length (snd next)))%Z).
Proof.
  unfold should_flip.
  rewrite !andb_true_iff, !negb_true_iff, !label_eqb_neq, !Z.leb_le. tauto.
Qed.

(** ** The pass of the code against the single pass of the specification *)

Lemma reference_step_local (mn mx : Z) (original : list segment) :
  local_step (reference_step mn mx original).
Proof.
  intros l i. unfold reference_step.
  destruct (original !! i); [|by left].
  destruct (original !! (i - 1)); [|by left].
  destruct (original !! (i + 1)); [|by left].
  right. by eexists.
Qed.

Lemma reference_flip_segments_outside (mn mx : Z) (segments : list segment) (j : nat) :
  j = 0 \/ length segments <= S j ->
  reference_flip_segments mn mx segments !! j = segments !! j.
Proof.
  intros Hj. apply foldl_local_other; [apply reference_step_local|].
  rewrite elem_of_seq. lia.
Qed.

Lemma reference_flip_segments_interior (mn mx : Z) (segments : list segment) (i : nat)
    (prev cur next : segment) :
  0 < i ->
  segments !! i = Some cur ->
  segments !! (i - 1) = Some prev ->
  segments !! (i + 1) = Some next ->
  reference_flip_segments mn mx segments !! i = Some (reference_segment mn mx prev cur next).
Proof.
  intros Hi Hc Hp Hn.
  pose proof (lookup_lt_Some _ _ _ Hn) as Hlen.
  pose proof (lookup_lt_Some _ _ _ Hc) as Hlen'.
  pose proof (reference_step_local mn mx segments) as Hloc.
  unfold reference_flip_segments.
  rewrite foldl_local_at by (done || lia).
  unfold reference_step at 1. rewrite Hc, Hp, Hn.
  apply list_lookup_insert_eq. by rewrite foldl_local_length.
Qed.

Lemma reference_flip_segments_length (mn mx : Z) (segments : list segment) :
  length (reference_flip_segments mn mx segments) = length segments.
Proof. apply foldl_local_length, reference_step_local. Qed.

(** The reference pass leaves a segment as it is or replaces a category by
    the other one; the indices stay. *)
Lemma reference_flip_segments_lookup (mn mx : Z) (segments : list segment) (k : nat)
    (cur : segment) :
  segments !! k = Some cur ->
  exists l, reference_flip_segments mn mx segments !! k = Some (l, snd cur).
Proof.
  intros Hk. pose proof (lookup_lt_Some _ _ _ Hk) as Hlt.
  destruct (decide (k = 0 \/ length segments <= S k)) as [Hout|Hin].
  - rewrite reference_flip_segments_outside by done. exists (fst cur). by destruct cur.
  - destruct (segments !! (k + 1)) as [next|] eqn:Hn;
      [|apply lookup_ge_None in Hn; lia].
    destruct (segments !! (k - 1)) as [prev|] eqn:Hp;
      [|apply lookup_ge_None in Hp; lia].
    rewrite (reference_flip_segments_interior mn mx segments k prev cur next)
      by (done || lia).
    unfold reference_segment. destruct cur as [[c|] idx]; simpl; [|by eexists].
    destruct (should_flip _ _ _ _ _); by eexists.
Qed.

Lemma reference_flip_segments_segment_indices (mn mx : Z) (segments : list segment) :
  segment_indices (reference_flip_segments mn mx segments) = segment_indices segments.
Proof.
  unfold segment_indices. f_equal. apply list_eq. intros k.
  rewrite !list_lookup_fmap.
  destruct (segments !! k) as [cur|] eqn:Hk.
  - destruct (reference_flip_segments_lookup mn mx _ _ _ Hk) as [l ->]. done.
  - apply lookup_ge_None in Hk.
    rewrite (proj2 (lookup_ge_None (reference_flip_segments mn mx segments) k)); [done|].
    by rewrite reference_flip_segments_length.
Qed.

(** With [max_flip_length < min_surround_chunks] a segment that was flipped
    is too short to license a flip of the segment after it, so reading its
    label before or after its own flip makes no difference. *)
Lemma should_flip_after_pass (mn mx : Z) (segments : list segment) (i : nat)
    (prev prev' cur next : segment) :
  (mx < mn)%Z ->
  0 < i ->
  segments !! (i - 1) = Some prev ->
  segments !! i = Some cur ->
  flip_segments mn mx segments !! (i - 1) = Some prev' ->
  should_flip mn mx prev' cur next = should_flip mn mx prev cur next.
Proof.
  intros Hlt Hi Hp Hc Hp'.
  destruct (decide (i - 1 = 0)) as [H0|H0].
  - rewrite flip_segments_outside in Hp' by (by left). congruence.
  - destruct (flip_segments mn mx segments !! (i - 1 - 1)) as [pp|] eqn:Hpp.
    2:{ apply lookup_ge_None in Hpp. rewrite flip_segments_length in Hpp.
        apply lookup_lt_Some in Hp. lia. }
    replace i with (i - 1 + 1) in Hc by lia.
    rewrite (flip_segments_interior mn mx segments (i - 1) pp prev cur) in Hp'
      by (done || lia).
    inversion Hp' as [Heq]. unfold flipped_segment.
    destruct (should_flip mn mx pp prev cur) eqn:Hflip; [|done].
    apply should_flip_true in Hflip as (Hshort & _).
    unfold should_flip. simpl.
    replace (mn <=? Z.of_nat (length prev.2))%Z with false by (symmetry; apply Z.leb_gt; lia).
    by rewrite !andb_false_r.
Qed.

(** With [max_flip_length < min_surround_chunks] the two passes leave the
    same entry wherever the segment is labelled with a category. *)
Lemma flip_segments_reference (mn mx : Z) (segments : list segment) (k : nat)
    (c : category) (indices : list nat) :
  (mx < mn)%Z ->
  segments !! k = Some (Some c, indices) ->
  flip_segments mn mx segments !! k = reference_flip_segments mn mx segments !! k.
Proof.
  intros Hlt Hc. pose proof (lookup_lt_Some _ _ _ Hc) as Hk.
  destruct (decide (k = 0 \/ length segments <= S k)) as [Hout|Hin].
  - by rewrite flip_segments_outside, reference_flip_segments_outside.
  - destruct (segments !! (k - 1)) as [prev|] eqn:Hp;
      [|apply lookup_ge_None in Hp; lia].
    destruct (segments !! (k + 1)) as [next|] eqn:Hn;
      [|apply lookup_ge_None in Hn; lia].
    destruct (flip_segments mn mx segments !! (k - 1)) as [prev'|] eqn:Hp';
      [|apply lookup_ge_None in Hp'; rewrite flip_segments_length in Hp'; lia].
    rewrite (flip_segments_interior mn mx segments k prev' (Some c, indices) next)
      by (done || lia).
    rewrite (reference_flip_segments_interior mn mx segments k prev (Some c, indices) next)
      by (done || lia).
    unfold flipped_segment, reference_segment. simpl.
    rewrite (should_flip_after_pass mn mx segments k prev prev' (Some c, indices) next)
      by (done || lia).
    by rewrite new_label_category.
Qed.

Lemma flip_segments_reference_categories (mn mx : Z) (segments : list segment) :
  (mx < mn)%Z ->
  Forall (fun s : segment => fst s <> Unknown) segments ->
  flip_segments mn mx segments = reference_flip_segments mn mx segments.
Proof.
  intros Hlt Hall. apply list_eq. intros k.
  destruct (segments !! k) as [[[c|] idx]|] eqn:Hk.
  - by eapply flip_segments_reference.
  - rewrite Forall_lookup in Hall. by destruct (Hall k _ Hk).
  - apply lookup_ge_None in Hk.
    rewrite (proj2 (lookup_ge_None (flip_segments mn mx segments) k))
      by (by rewrite flip_segments_length).
    symmetry. apply lookup_ge_None. by rewrite reference_flip_segments_length.
Qed.

(** With [max_flip_length < min_surround_chunks] the rule can be read on the
    segmentation itself. *)
Lemma flip_rule_on_segmentation_holds (predictions : list label) (mn mx : Z) (i : nat) :
  (mx < mn)%Z -> 0 < i -> flip_rule_on_segmentation predictions mn mx i.
Proof.
  intros Hlt Hi c indices prev next Hc Hp Hn.
  pose proof (lookup_lt_Some _ _ _ Hp) as Hlen.
  destruct (flip_segments mn mx (segments_of predictions) !! (i - 1)) as [prev'|] eqn:Hp';
    [|apply lookup_ge_None in Hp'; rewrite flip_segments_length in Hp'; lia].
  rewrite (flip_segments_interior mn mx _ i prev' (Some c, indices) next) by done.
  unfold flipped_segment.
  rewrite (should_flip_after_pass mn mx _ i prev prev' (Some c, indices) next) by done.
  rewrite <- (should_flip_true mn mx prev (Some c, indices) next).
  simpl. rewrite new_label_category.
  pose proof (other_category_neq c).
  destruct (should_flip mn mx prev (Some c, indices) next); split; try done.
  intros [= ?]. congruence.
Qed.

(** C1, as the code has it: an interior segment labelled with a category ends
    up with the other category exactly when it is at most [max_flip_length]
    long, the label the pass has left on the segment before it and the label
    of the segment after it both differ from its own, and both neighbours are
    at least [min_surround_chunks] long; otherwise it keeps its label.  The
    chunks of the segment carry that label in the corrected sequence.  When
    [max_flip_length < min_surround_chunks] the label left on the segment
    before is immaterial and the rule holds as read on the segmentation.
    [B,B,B,A,B,B,B,B] with 3 and 2 becomes eight times [B]. *)
Theorem flip_rule_on_pass (predictions : list label) (mn mx : Z) (i : nat)
    (c : category) (indices : list nat) (prev prev' next : segment) :
  0 < i ->
  segments_of predictions !! i = Some (Some c, indices) ->
  segments_of predictions !! (i - 1) = Some prev ->
  segments_of predictions !! (i + 1) = Some next ->
  flip_segments mn mx (segments_of predictions) !! (i - 1) = Some prev' ->
  let flipped := flip_segments mn mx (segments_of predictions) in
  let rule := (Z.of_nat (length indices) <= mx)%Z
              /\ fst prev' <> Some c /\ fst next <> Some c
              /\ (mn <= Z.of_nat (length (snd prev)))%Z
              /\ (mn <= Z.of_nat (length (snd next)))%Z in
  (flipped !! i = Some (Some (other_category c), indices) <-> rule)
  /\ (flipped !! i = Some (Some c, indices) <-> ~ rule)
  /\ (exists corrected new,
        apply_forgiving_heuristic predictions mn mx = Ok corrected
        /\ flipped !! i = Some (new, indices)
        /\ forall j, j ∈ indices -> corrected !! j = Some new)
  /\ ((mx < mn)%Z -> flip_rule_on_segmentation predictions mn mx i)
  /\ apply_forgiving_heuristic
       [Some B; Some B; Some B; Some A; Some B; Some B; Some B; Some B] 3 2
     = Ok [Some B; Some B; Some B; Some B; Some B; Some B; Some B; Some B].
Proof.
  intros Hi Hc Hp Hn Hp'. cbv zeta.
  pose proof (flip_segments_interior mn mx _ _ _ _ _ Hi Hc Hn Hp') as Hfin.
  pose proof (flip_segments_same_indices _ _ _ _ _ _ Hp Hp') as Hsnd.
  pose proof (should_flip_true mn mx prev' (Some c, indices) next) as Hrule.
  simpl in Hrule. rewrite Hsnd in Hrule.
  pose proof (other_category_neq c) as Hne.
  unfold flipped_segment in Hfin. simpl in Hfin. rewrite new_label_category in Hfin.
  split; [|split; [|split; [|split]]].
  - rewrite Hfin. destruct (should_flip mn mx prev' (Some c, indices) next).
    + split; [intros _; by apply Hrule|done].
    + split; [intros H; inversion H; congruence|].
      intros H. apply Hrule in H. done.
  - rewrite Hfin. destruct (should_flip mn mx prev' (Some c, indices) next).
    + split; [intros H; inversion H; congruence|].
      intros H. exfalso. apply H. by apply Hrule.
    + split; [|done]. intros _ H. apply Hrule in H. done.
  - destruct predictions as [|p0 rest]; [done|].
    destruct (should_flip mn mx prev' (Some c, indices) next);
      (eexists; eexists; split; [done|]; split; [exact Hfin|];
       intros j Hj; by eapply corrected_lookup).
  - intros Hlt. by apply flip_rule_on_segmentation_holds.
  - reflexivity.
Qed.

Lemma flip_rule_on_pass_witness :
  let predictions := [Some A; Some B; Some A; Some B] in
  let flipped := flip_segments 1 1 (segments_of predictions) in
  flipped !! 1 = Some (Some A, [1]) /\ flipped !! 2 = Some (Some A, [2]).
Proof.
  split.
  - apply (flip_rule_on_pass [Some A; Some B; Some A; Some B] 1 1 1 B [1]
             (Some A, [0]) (Some A, [0]) (Some A, [2]));
      [lia|reflexivity|reflexivity|reflexivity|reflexivity|].
    simpl. repeat split; (discriminate || lia).
  - apply (flip_rule_on_pass [Some A; Some B; Some A; Some B] 1 1 2 A [2]
             (Some B, [1]) (Some A, [1]) (Some B, [3]));
      [lia|reflexivity|reflexivity|reflexivity|reflexivity|].
    simpl. intros (_ & H & _). by apply H.
Defined.

(** C1, counterexample: on [A,B,A,B] with both parameters 1 the segment at
    index 2 is short, both its neighbours in the segmentation are [B] and long
    enough, and it keeps its [A]: the segment before it has been flipped to
    [A] by the time it is examined. *)
Lemma flip_rule_on_segmentation_fails :
  ~ flip_rule_on_segmentation [Some A; Some B; Some A; Some B] 1 1 2.
Proof.
  intros H.
  specialize (H A [2] (Some B, [1]) (Some B, [3]) eq_refl eq_refl eq_refl).
  destruct H as [_ H].
  assert (flip_segments 1 1 (segments_of [Some A; Some B; Some A; Some B]) !! 2
          = Some (Some (other_category A), [2])) as Hflip.
  { apply H. simpl. repeat split; (discriminate || lia). }
  vm_compute in Hflip. discriminate.
Qed.

(** C2, as the code has it: when [max_flip_length < min_surround_chunks], as
    with the defaults 3 and 2, the corrected label of every chunk whose
    prediction is a category is the one of the single pass that reads only
    the unmodified segment list and never flips an Unknown segment; for a
    sequence without Unknown the two results are equal. *)
Theorem heuristic_matches_reference (predictions : list label) (mn mx : Z) :
  (mx < mn)%Z ->
  (forall j c, predictions !! j = Some (Some c) ->
     exists corrected reference,
       apply_forgiving_heuristic predictions mn mx = Ok corrected
       /\ reference_heuristic predictions mn mx = Ok reference
       /\ corrected !! j = reference !! j)
  /\ (Forall (fun l : label => l <> Unknown) predictions ->
      apply_forgiving_heuristic predictions mn mx = reference_heuristic predictions mn mx).
Proof.
  intros Hlt. destruct predictions as [|p0 rest]; [split; [by intros j c ?|done]|].
  split.
  - intros j c Hj. eexists _, _. split; [reflexivity|]. split; [reflexivity|].
    assert (j ∈ segment_indices (group_segments p0 rest)) as Hin.
    { rewrite indices_group_segments, elem_of_seq.
      apply lookup_lt_Some in Hj. simpl in *. lia. }
    apply segment_of_index in Hin as (k & l & indices & Hk & Hjk).
    rewrite (predictions_lookup _ _ _ _ _ _ Hk Hjk) in Hj. inversion Hj; subst l.
    destruct (reference_flip_segments_lookup mn mx _ _ _ Hk) as [l' Href]. simpl in Href.
    pose proof (flip_segments_reference mn mx _ _ _ _ Hlt Hk) as Hsame.
    rewrite Href in Hsame.
    rewrite (corrected_lookup _ _ _ _ _ _ _ _ Hsame Hjk).
    symmetry. eapply expand_segments_lookup; [|exact Href|exact Hjk].
    rewrite reference_flip_segments_segment_indices. apply indices_group_segments.
  - intros Hall. unfold apply_forgiving_heuristic, reference_heuristic.
    rewrite flip_segments_reference_categories; [done|done|].
    apply Forall_lookup. intros k [l idx] Hk. simpl.
    apply segment_label_is_prediction in Hk.
    rewrite Forall_forall in Hall. by apply Hall.
Qed.

Lemma heuristic_matches_reference_witness :
  (2 < 3)%Z
  /\ apply_forgiving_heuristic [Some B; Some B; Some B; Some A; Some B; Some B; Some B] 3 2
     = reference_heuristic [Some B; Some B; Some B; Some A; Some B; Some B; Some B] 3 2.
Proof.
  split; [lia|].
  apply (heuristic_matches_reference
           [Some B; Some B; Some B; Some A; Some B; Some B; Some B] 3 2).
  - lia.
  - repeat constructor; discriminate.
Defined.

(** C2, counterexample: on [A,B,A,B] with both parameters 1 the code returns
    [A,A,A,B], the single pass over the unmodified segments [A,A,B,B]: the
    decision at the third segment reads the second one after its flip. *)
Lemma heuristic_differs_from_reference :
  apply_forgiving_heuristic [Some A; Some B; Some A; Some B] 1 1
    = Ok [Some A; Some A; Some A; Some B]
  /\ reference_heuristic [Some A; Some B; Some A; Some B] 1 1
    = Ok [Some A; Some A; Some B; Some B]
  /\ apply_forgiving_heuristic [Some A; Some B; Some A; Some B] 1 1
     <> reference_heuristic [Some A; Some B; Some A; Some B] 1 1.
Proof. split; [reflexivity|split; [reflexivity|discriminate]]. Qed.

(** C3, the code at the failing input: a lone [None] between two runs of
    three [B] is replaced by [A]. *)
Theorem unknown_segment_is_flipped :
  apply_forgiving_heuristic
    [Some B; Some B; Some B; Unknown; Some B; Some B; Some B] 3 2
  = Ok [Some B; Some B; Some B; Some A; Some B; Some B; Some B].
Proof. reflexivity. Qed.

(** ** The chunker *)

Section Chunker.
Context {sample : Type}.
Implicit Types audio : AudioSegment sample.

Lemma audio_slice_inside audio (start_ms d : Z) :
  (0 <= start_ms)%Z -> (0 <= d)%Z -> (start_ms + d <= audio_len audio)%Z ->
  audio_slice audio start_ms (start_ms + d)
  = take (Z.to_nat d) (drop (Z.to_nat start_ms) audio).
Proof.
  intros Hs Hd Hle. unfold audio_slice. cbv zeta.
  rewrite !Z.min_l by lia. f_equal. f_equal. lia.
Qed.

Lemma chunks_concat audio (dn n : nat) :
  concat (map (fun i : nat => take dn (drop (i * dn) audio)) (seq 0 n))
  = take (n * dn) audio.
Proof.
  induction n as [|n IH]; [done|].
  rewrite seq_S, map_app, concat_app, IH. simpl. rewrite app_nil_r.
  rewrite take_take_drop. f_equal. lia.
Qed.

(** C6: for a chunk length [d > 0] the chunker returns [floor(T/d)] chunks,
    each exactly [d] long; chunk [i] is the slice [[i*d, i*d + d)], so the
    chunks are contiguous, do not overlap and together are the prefix
    [[0, floor(T/d)*d)] of the timeline; what is left is shorter than [d] and
    belongs to no chunk. *)
Theorem chunker_covers_prefix audio (chunk_length_sec : Z) :
  (0 < chunk_length_sec)%Z ->
  let d := (chunk_length_sec * 1000)%Z in
  let T := audio_len audio in
  exists chunks,
    split_chunks audio chunk_length_sec = Ok chunks
    /\ Z.of_nat (length chunks) = (T / d)%Z
    /\ Forall (fun chunk => audio_len chunk = d) chunks
    /\ (forall i chunk, chunks !! i = Some chunk ->
          chunk = take (Z.to_nat d) (drop (i * Z.to_nat d) audio))
    /\ concat chunks = take (Z.to_nat (T / d * d)) audio
    /\ (0 <= T - T / d * d < d)%Z.
Proof.
  intros Hpos d T.
  assert (0 < d)%Z as Hd by (unfold d; lia).
  assert (0 <= T)%Z as HT by (unfold T, audio_len; lia).
  pose proof (Z.div_pos T d HT Hd) as HN.
  pose proof (Z.mul_div_le T d Hd) as Hle.
  pose proof (Z.mod_pos_bound T d Hd) as Hmod.
  pose proof (Z.div_mod T d ltac:(lia)) as Hdm.
  unfold split_chunks. fold d. fold T.
  destruct (d =? 0)%Z eqn:E; [apply Z.eqb_eq in E; lia|].
  set (n := Z.to_nat (T / d)).
  assert (map (fun i : nat =>
                 audio_slice audio (Z.of_nat i * d) (Z.of_nat i * d + d)) (seq 0 n)
          = map (fun i : nat => take (Z.to_nat d) (drop (i * Z.to_nat d) audio)) (seq 0 n))
    as Hmap.
  { apply map_ext_in. intros i Hi. apply in_seq in Hi.
    rewrite audio_slice_inside by (fold T; nia).
    f_equal. f_equal. lia. }
  eexists. split; [reflexivity|]. cbv zeta. rewrite Hmap.
  split; [|split; [|split; [|split]]].
  - rewrite length_map, length_seq. unfold n. lia.
  - apply Forall_forall. intros chunk Hin.
    apply list_elem_of_fmap in Hin as (i & -> & Hi).
    apply elem_of_seq in Hi. unfold audio_len.
    rewrite length_take, length_drop. fold (audio_len audio). fold T.
    unfold T, audio_len in *. nia.
  - intros i chunk Hi. rewrite list_lookup_fmap in Hi.
    destruct (seq 0 n !! i) as [k|] eqn:Hk; [|done].
    apply lookup_seq in Hk as [-> _]. simpl in Hi. by inversion Hi.
  - rewrite chunks_concat. f_equal. unfold n. lia.
  - lia.
Qed.

End Chunker.

Lemma chunker_covers_prefix_witness :
  exists chunks,
    split_chunks (replicate 2500 tt : AudioSegment unit) 1 = Ok chunks /\ Z.of_nat (length chunks) = 2%Z.
Proof.
  destruct (chunker_covers_prefix (replicate 2500 tt : AudioSegment unit) 1 ltac:(lia))
    as (chunks & Hc & Hlen & _).
  exists chunks. split; [exact Hc|].
  rewrite Hlen. unfold audio_len. rewrite length_replicate. reflexivity.
Defined.

(** ** Reconstruction and export *)

Section Reconstruction.
Context {sample : Type}.
Variable export_ok : category -> nat -> bool.
Implicit Types chunks : list (AudioSegment sample).
Implicit Types corrected : list label.

Lemma enumerate_from_cons (i : nat) (chunk : AudioSegment sample) chunks :
  enumerate_from i (chunk :: chunks) = (i, chunk) :: enumerate_from (S i) chunks.
Proof. done. Qed.

Lemma enumerate_from_lookup chunks : forall i k ic,
  enumerate_from i chunks !! k = Some ic <-> ic.1 = i + k /\ chunks !! k = Some ic.2.
Proof.
  induction chunks as [|chunk chunks IH]; intros i k [j c]; simpl.
  - split; [done|]. by intros [_ ?].
  - rewrite enumerate_from_cons. destruct k as [|k]; simpl.
    + split; [intros [= <- <-]; split; [lia|done]|].
      intros [-> [= <-]]. do 2 f_equal. lia.
    + rewrite IH. simpl. split; intros [? ?]; split; (lia || done).
Qed.

Lemma append_track_cons (combined : option (AudioSegment sample))
    (chunk : AudioSegment sample) chunks :
  append_track combined (chunk :: chunks)
  = append_track (match combined with
                  | None => Some chunk
                  | Some track => Some (track ++ chunk)
                  end) chunks.
Proof.
  destruct combined as [track|], chunks as [|c chunks]; simpl;
    by rewrite ?app_nil_r, <- ?app_assoc.
Qed.

Lemma exports_of_cons corrected (ic : nat * AudioSegment sample) indexed :
  exports_of corrected (ic :: indexed)
  = match export_of corrected ic with
    | Some f => f :: exports_of corrected indexed
    | None => exports_of corrected indexed
    end.
Proof. done. Qed.

Lemma desired_chunks_cons corrected desired (ic : nat * AudioSegment sample) indexed :
  desired_chunks corrected desired (ic :: indexed)
  = if decide (corrected !! ic.1 = Some desired)
    then ic :: desired_chunks corrected desired indexed
    else desired_chunks corrected desired indexed.
Proof. unfold desired_chunks. by rewrite filter_cons. Qed.

(** The loop, when every label is there and every export succeeds: the files
    of the chunks labelled with a category are added in order, the chunks
    labelled [desired_label] are appended to the track in order. *)
Lemma reconstruct_from_ok chunks : forall i corrected desired combined files,
  (forall k, k < length chunks -> exists l, corrected !! (i + k) = Some l) ->
  (forall k c, k < length chunks -> corrected !! (i + k) = Some (Some c) ->
     export_ok c (i + k) = true) ->
  reconstruct_from export_ok i chunks corrected desired combined files
  = (files ++ exports_of corrected (enumerate_from i chunks),
     Ok (append_track combined
           (desired_chunks corrected desired (enumerate_from i chunks)).*2)).
Proof.
  induction chunks as [|chunk chunks IH]; intros i corrected desired combined files Hl Hx.
  - simpl. destruct combined; simpl; by rewrite !app_nil_r.
  - rewrite enumerate_from_cons, exports_of_cons, desired_chunks_cons.
    unfold export_of. simpl.
    destruct (Hl 0 ltac:(simpl; lia)) as [l Hi]. rewrite Nat.add_0_r in Hi. rewrite Hi.
    assert (forall k, k < length chunks -> exists l', corrected !! (S i + k) = Some l') as Hl'.
    { intros k Hk. replace (S i + k) with (i + S k) by lia. apply Hl. simpl. lia. }
    assert (forall k c, k < length chunks -> corrected !! (S i + k) = Some (Some c) ->
              export_ok c (S i + k) = true) as Hx'.
    { intros k c Hk. replace (S i + k) with (i + S k) by lia. apply Hx. simpl. lia. }
    assert (forall c, l = Some c -> export_ok c i = true) as Hhere.
    { intros c ->. specialize (Hx 0 c). rewrite Nat.add_0_r in Hx.
      apply Hx; [simpl; lia|done]. }
    assert (label_eqb l desired = bool_decide (Some l = Some desired)) as ->.
    { unfold label_eqb. apply bool_decide_ext. split; congruence. }
    destruct l as [c|]; [rewrite (Hhere c eq_refl)|]; rewrite IH by done;
      case_decide; simpl.
    all: rewrite ?bool_decide_eq_true_2, ?bool_decide_eq_false_2 by done.
    all: rewrite ?append_track_cons, <- ?app_assoc; done.
Qed.

(** The loop stops at the first export that fails: the exception leaves the
    files written so far and no track. *)
Lemma reconstruct_from_export_failure (chunk : AudioSegment sample) chunks
    (i : nat) corrected desired combined files (c : category) :
  corrected !! i = Some (Some c) ->
  export_ok c i = false ->
  reconstruct_from export_ok i (chunk :: chunks) corrected desired combined files
  = (files, Raise OSError).
Proof. intros Hi Hx. simpl. by rewrite Hi, Hx. Qed.

Lemma reconstruct_audio_ok corrected chunks desired :
  length corrected = length chunks ->
  (forall i c, i < length chunks -> corrected !! i = Some (Some c) ->
     export_ok c i = true) ->
  reconstruct_audio export_ok corrected chunks desired
  = (exports_of corrected (enumerate_from 0 chunks),
     Ok (append_track None (desired_chunks corrected desired (enumerate_from 0 chunks)).*2)).
Proof.
  intros Hlen Hx. unfold reconstruct_audio.
  rewrite reconstruct_from_ok; [done| |done].
  intros k Hk. simpl. apply lookup_lt_is_Some. lia.
Qed.

Lemma elem_of_enumerate_from chunks (i : nat) (chunk : AudioSegment sample) :
  (i, chunk) ∈ enumerate_from 0 chunks <-> chunks !! i = Some chunk.
Proof.
  rewrite list_elem_of_lookup. split.
  - intros [k Hk]. apply enumerate_from_lookup in Hk as [Hi Hc]. simpl in *. by subst.
  - intros Hc. exists i. by apply enumerate_from_lookup.
Qed.

Lemma desired_chunks_ascending corrected desired chunks : forall i,
  StronglySorted lt (desired_chunks corrected desired (enumerate_from i chunks)).*1
  /\ Forall (le i) (desired_chunks corrected desired (enumerate_from i chunks)).*1.
Proof.
  induction chunks as [|chunk chunks IH]; intros i.
  - split; constructor.
  - rewrite enumerate_from_cons, desired_chunks_cons.
    destruct (IH (S i)) as [Hs Hf].
    assert (Forall (le i) (desired_chunks corrected desired
                             (enumerate_from (S i) chunks)).*1) as Hf'
      by (eapply Forall_impl; [exact Hf|]; simpl; lia).
    case_decide; [|done]. simpl. split.
    + constructor; [done|]. eapply Forall_impl; [exact Hf|]. simpl. lia.
    + by constructor.
Qed.

Lemma audio_len_concat chunks : audio_len (concat chunks) = total_duration chunks.
Proof.
  unfold audio_len. induction chunks as [|chunk chunks IH]; simpl; [done|].
  rewrite length_app, <- IH. unfold audio_len. lia.
Qed.


Lemma files_of_chunk_exports corrected chunks (i : nat) : forall j,
  files_of_chunk (exports_of corrected (enumerate_from j chunks)) i
  = match corrected !! i, chunks !! (i - j) with
    | Some (Some c), Some chunk => if decide (j <= i) then [Exported c i chunk] else []
    | _, _ => []
    end.
Proof.
  unfold files_of_chunk.
  induction chunks as [|chunk chunks IH]; intros j.
  - simpl. by destruct (corrected !! i) as [[c|]|].
  - rewrite enumerate_from_cons, exports_of_cons. unfold export_of. simpl.
    destruct (decide (i = j)) as [->|Hne].
    + replace (j - j) with 0 by lia. simpl.
      destruct (corrected !! j) as [[c|]|] eqn:Hj.
      * rewrite filter_cons. simpl. rewrite decide_True by done.
        rewrite IH. rewrite decide_True by lia.
        destruct (chunks !! (j - S j)); [|done]. by rewrite decide_False by lia.
      * by rewrite IH.
      * by rewrite IH.
    + assert (forall (chunk_dir : category) (rest : list exported),
                filter (fun f : exported => export_index f = i) (Exported chunk_dir j chunk :: rest)
                = filter (fun f : exported => export_index f = i) rest) as Hskip
        by (intros chunk_dir rest; rewrite filter_cons; simpl;
            by rewrite decide_False by congruence).
      destruct (corrected !! j) as [[c|]|] eqn:Hj; rewrite ?Hskip, IH;
        (destruct (corrected !! i) as [[c'|]|]; [|done|done]);
        (destruct (decide (j <= i)) as [Hle|Hgt];
         [ replace (i - j) with (S (i - S j)) by lia; simpl;
           destruct (chunks !! (i - S j)); [|done]; by rewrite decide_True by lia
         | destruct (chunks !! (i - S j)); [|by destruct ((chunk :: chunks) !! (i - j))];
           rewrite decide_False by lia; by destruct ((chunk :: chunks) !! (i - j)) ]).
Qed.

(** C4, as the code has it: when every export succeeds, a chunk whose
    corrected label is a category has exactly one file, in the directory of
    that label, named by its index and holding its payload; a chunk whose
    corrected label is [None] has no file.  The labels used are the corrected
    ones: [process_audio] hands the output of the heuristic to the
    reconstruction. *)
Theorem chunks_exported_by_corrected_label corrected chunks (desired : label) :
  length corrected = length chunks ->
  (forall i c, i < length chunks -> corrected !! i = Some (Some c) ->
     export_ok c i = true) ->
  let files := (reconstruct_audio export_ok corrected chunks desired).1 in
  (forall i chunk, chunks !! i = Some chunk ->
     (forall c, corrected !! i = Some (Some c) ->
        files_of_chunk files i = [Exported c i chunk])
     /\ (corrected !! i = Some Unknown -> files_of_chunk files i = []))
  /\ (forall predictions output_ok,
        apply_forgiving_heuristic predictions 3 2 = Ok corrected ->
        (correct_and_reconstruct export_ok output_ok predictions chunks).1 = files).
Proof.
  intros Hlen Hx files. unfold files.
  split.
  - rewrite reconstruct_audio_ok by done. simpl.
    intros i chunk Hi. rewrite files_of_chunk_exports.
    replace (i - 0) with i by lia. rewrite Hi.
    split; [intros c Hc|intros Hc]; rewrite Hc; [|done].
    rewrite decide_True by lia. done.
  - intros predictions output_ok Hh. unfold correct_and_reconstruct. rewrite Hh.
    by rewrite !reconstruct_audio_ok by done.
Qed.

End Reconstruction.

Lemma chunks_exported_by_corrected_label_witness :
  let corrected := [Some B; Some B; Some B; Some B; Some B; Some B; Some B] in
  let chunks : list (AudioSegment nat) := [[0]; [1]; [2]; [3]; [4]; [5]; [6]] in
  files_of_chunk
    (correct_and_reconstruct (fun _ _ => true) true
       [Some B; Some B; Some B; Some A; Some B; Some B; Some B] chunks).1 3
  = [Exported B 3 [3]].
Proof.
  intros corrected chunks.
  destruct (chunks_exported_by_corrected_label (fun _ _ => true) corrected chunks (Some B)
              eq_refl (fun _ _ _ _ => eq_refl)) as [Hfiles Hpipeline].
  rewrite (Hpipeline [Some B; Some B; Some B; Some A; Some B; Some B; Some B] true eq_refl).
  exact (proj1 (Hfiles 3 [3] eq_refl) B eq_refl).
Defined.

(** C4, counterexample: a chunk whose corrected label is [None] is not
    exported at all, although every export succeeds. *)
Lemma unknown_chunk_not_exported :
  ~ every_chunk_exported_once (fun _ _ => true) [Unknown] [[tt]] (Some B).
Proof.
  intros H. destruct (H 0 [tt] eq_refl) as (f & Hf & _).
  vm_compute in Hf. discriminate.
Qed.

(** C8, the code at the failing input: with three chunks labelled [B] and an
    export that fails for the second one, [reconstruct_audio] raises; the
    first file is there, the third chunk is neither exported nor appended and
    no track is returned, in [process_audio] as well.  A failing export of the
    combined track, in contrast, is caught and leaves the three files. *)
Theorem export_failure_aborts :
  let export_ok := fun (_ : category) (i : nat) => negb (Nat.eqb i 1) in
  let chunks : list (AudioSegment nat) := [[0]; [1]; [2]] in
  reconstruct_audio export_ok [Some B; Some B; Some B] chunks (Some B)
    = ([Exported B 0 [0]], Raise OSError)
  /\ correct_and_reconstruct export_ok true [Some B; Some B; Some B] chunks
    = ([Exported B 0 [0]], Raise OSError)
  /\ correct_and_reconstruct (fun _ _ => true) false [Some B; Some B; Some B] chunks
    = ([Exported B 0 [0]; Exported B 1 [1]; Exported B 2 [2]], Ok CombinedSaveFailed).
Proof. repeat split; reflexivity. Qed.



(** ** Classification failures *)

(** A segment keeps its label or gets the one [new_label] computes from it. *)
Lemma flip_segments_label (mn mx : Z) (segments : list segment) (k : nat)
    (l : label) (indices : list nat) :
  segments !! k = Some (l, indices) ->
  flip_segments mn mx segments !! k = Some (l, indices)
  \/ flip_segments mn mx segments !! k = Some (new_label l, indices).
Proof.
  intros Hk. pose proof (lookup_lt_Some _ _ _ Hk) as Hlt.
  destruct (decide (k = 0 \/ length segments <= S k)) as [Hout|Hin].
  - left. by rewrite flip_segments_outside.
  - destruct (segments !! (k + 1)) as [next|] eqn:Hn;
      [|apply lookup_ge_None in Hn; lia].
    destruct (flip_segments mn mx segments !! (k - 1)) as [prev'|] eqn:Hp;
      [|apply lookup_ge_None in Hp; rewrite flip_segments_length in Hp; lia].
    rewrite (flip_segments_interior mn mx segments k prev' (l, indices) next)
      by (done || lia).
    unfold flipped_segment. destruct (should_flip _ _ _ _ _); auto.
Qed.

(** A chunk without a category is never turned into a [B] by the heuristic. *)
Lemma unknown_never_becomes_B (predictions corrected : list label) (mn mx : Z) (j : nat) :
  apply_forgiving_heuristic predictions mn mx = Ok corrected ->
  predictions !! j = Some Unknown ->
  corrected !! j <> Some (Some B).
Proof.
  destruct predictions as [|p0 rest]; [done|]. intros [= <-] Hj.
  assert (j ∈ segment_indices (group_segments p0 rest)) as Hin.
  { rewrite indices_group_segments, elem_of_seq.
    apply lookup_lt_Some in Hj. simpl in *. lia. }
  apply segment_of_index in Hin as (k & l & indices & Hk & Hjk).
  rewrite (predictions_lookup _ _ _ _ _ _ Hk Hjk) in Hj. inversion Hj; subst l.
  destruct (flip_segments_label mn mx _ _ _ _ Hk) as [Hf|Hf];
    by rewrite (corrected_lookup _ _ _ _ _ _ _ _ Hf Hjk).
Qed.

Section Classification.
Context {sample : Type}.
Implicit Types oracle : nat -> AudioSegment sample -> subprocess_outcome.
Implicit Types temp_export_ok remove_ok : nat -> bool.
Implicit Types chunks : list (AudioSegment sample).

Lemma run_inference_failure oracle (i : nat) (chunk : AudioSegment sample) :
  contained_failure (oracle i chunk) -> run_inference oracle i chunk = Ok Unknown.
Proof.
  unfold run_inference. intros [->|(stdout & -> & HA & HB)]; [done|].
  by rewrite HA, HB.
Qed.

(** A call of [process_chunk] that returns gives back its own index and the
    label [run_inference] returned. *)
Lemma process_chunk_ok oracle temp_export_ok remove_ok (i k : nat)
    (chunk : AudioSegment sample) (l : label) :
  process_chunk oracle temp_export_ok remove_ok i chunk = Ok (k, l) ->
  k = i /\ run_inference oracle i chunk = Ok l.
Proof.
  unfold process_chunk. destruct (temp_export_ok i); [|done].
  destruct (run_inference oracle i chunk) as [l'|e]; [|done].
  destruct (remove_ok i); [|done]. by intros [= <- <-].
Qed.

Lemma collect_from_length oracle temp_export_ok remove_ok chunks (order : list nat) :
  forall predictions l : list label,
    collect_from oracle temp_export_ok remove_ok chunks predictions order = Ok l ->
    length l = length predictions.
Proof.
  induction order as [|k order IH]; intros predictions l; cbn [collect_from].
  - by intros [= ->].
  - destruct (chunks !! k) as [chunk|]; [|apply IH].
    destruct (process_chunk oracle temp_export_ok remove_ok k chunk) as [[k' p]|e]; [|done].
    intros Hl. apply IH in Hl. by rewrite length_insert in Hl.
Qed.

(** After a collection loop that returns, the entry of a chunk whose future
    was yielded is the label its own call returned; the other entries are
    untouched. *)
Lemma collect_from_lookup oracle temp_export_ok remove_ok chunks (order : list nat)
    (j : nat) (chunk : AudioSegment sample) :
  forall predictions l : list label,
    chunks !! j = Some chunk ->
    length predictions = length chunks ->
    collect_from oracle temp_export_ok remove_ok chunks predictions order = Ok l ->
    (j ∈ order ->
       exists p, process_chunk oracle temp_export_ok remove_ok j chunk = Ok (j, p)
                 /\ l !! j = Some p)
    /\ (j ∉ order -> l !! j = predictions !! j).
Proof.
  induction order as [|k order IH]; intros predictions l Hj Hlen; cbn [collect_from].
  - intros [= ->]. split; [by intros ?%elem_of_nil|done].
  - pose proof (lookup_lt_Some _ _ _ Hj) as Hlt.
    destruct (chunks !! k) as [chunk'|] eqn:Hk.
    + destruct (process_chunk oracle temp_export_ok remove_ok k chunk')
        as [[k' p]|e] eqn:Hp; [|done].
      destruct (process_chunk_ok _ _ _ _ _ _ _ Hp) as [-> _].
      intros Hl.
      destruct (IH _ _ Hj ltac:(by rewrite length_insert) Hl) as [Hin Hout].
      destruct (decide (j ∈ order)) as [Hjo|Hjo].
      * split; [by intros _; apply Hin|]. intros Hn. destruct Hn. by right.
      * rewrite (Hout Hjo). destruct (decide (k = j)) as [->|Hne].
        -- split; [|intros Hn; destruct Hn; left].
           intros _. exists p. rewrite list_lookup_insert_eq by lia.
           split; [congruence|done].
        -- rewrite list_lookup_insert_ne by done.
           split; [|done]. rewrite elem_of_cons. intros [?|?]; congruence.
    + intros Hl. destruct (IH _ _ Hj Hlen Hl) as [Hin Hout].
      assert (k <> j) by congruence. split.
      * rewrite elem_of_cons. intros [?|?]; [congruence|by apply Hin].
      * rewrite elem_of_cons. intros Hn. apply Hout. intros ?. apply Hn. by right.
Qed.

(** The collection loop returns when every call it waits for returns. *)
Lemma collect_from_returns oracle temp_export_ok remove_ok chunks (order : list nat) :
  forall predictions : list label,
    (forall i chunk, i ∈ order -> chunks !! i = Some chunk ->
       exists l, process_chunk oracle temp_export_ok remove_ok i chunk = Ok (i, l)) ->
    exists l, collect_from oracle temp_export_ok remove_ok chunks predictions order = Ok l.
Proof.
  induction order as [|k order IH]; intros predictions Hall; cbn [collect_from].
  - by eexists.
  - destruct (chunks !! k) as [chunk|] eqn:Hk.
    + destruct (Hall k chunk ltac:(left) Hk) as [l ->].
      apply IH. intros i c Hi. apply Hall. by right.
    + apply IH. intros i c Hi. apply Hall. by right.
Qed.

(** Whatever the order of completion, the loop returns exactly the list of
    the labels the chunks' own calls returned, in index order. *)
Lemma collect_predictions_spec oracle temp_export_ok remove_ok chunks
    (order : list nat) (predictions : list label) :
  order ≡ₚ seq 0 (length chunks) ->
  collect_predictions oracle temp_export_ok remove_ok chunks order = Ok predictions
  <-> length predictions = length chunks
      /\ forall i chunk, chunks !! i = Some chunk ->
           exists l, process_chunk oracle temp_export_ok remove_ok i chunk = Ok (i, l)
                     /\ predictions !! i = Some l.
Proof.
  intros Hperm.
  assert (forall l,
            collect_predictions oracle temp_export_ok remove_ok chunks order = Ok l ->
            length l = length chunks
            /\ forall i chunk, chunks !! i = Some chunk ->
                 exists p, process_chunk oracle temp_export_ok remove_ok i chunk = Ok (i, p)
                           /\ l !! i = Some p) as Hfwd.
  { intros l Hl. unfold collect_predictions in Hl. split.
    - apply collect_from_length in Hl. by rewrite length_replicate in Hl.
    - intros i chunk Hi.
      destruct (collect_from_lookup _ _ _ _ _ i chunk _ _ Hi
                  ltac:(by rewrite length_replicate) Hl) as [Hin _].
      apply Hin. rewrite Hperm, elem_of_seq. apply lookup_lt_Some in Hi. lia. }
  split; [apply Hfwd|]. intros [Hlen Hall].
  destruct (collect_from_returns oracle temp_export_ok remove_ok chunks order
              (replicate (length chunks) None)) as [l Hl].
  { intros i chunk _ Hi. destruct (Hall i chunk Hi) as (p & Hp & _). by exists p. }
  fold (collect_predictions oracle temp_export_ok remove_ok chunks order) in Hl.
  rewrite Hl. f_equal. destruct (Hfwd l Hl) as [Hlen' Hall'].
  apply list_eq. intros i. destruct (chunks !! i) as [chunk|] eqn:Hi.
  - destruct (Hall i chunk Hi) as (p & Hp & ->).
    destruct (Hall' i chunk Hi) as (p' & Hp' & ->). congruence.
  - apply lookup_ge_None in Hi.
    rewrite (proj2 (lookup_ge_None l i)) by lia.
    symmetry. apply lookup_ge_None. lia.
Qed.


End Classification.



(** * Further properties of [process_file.py] *)

(** ** The heuristic *)

(** A segment whose label has changed is interior, has passed the test of the
    loop against the entry the pass had left before it, and carries the label
    [new_label] computes. *)
Lemma flip_segments_changed (mn mx : Z) (segments : list segment) (k : nat)
    (l : label) (indices : list nat) :
  segments !! k = Some (l, indices) ->
  flip_segments mn mx segments !! k <> Some (l, indices) ->
  0 < k /\ S k < length segments
  /\ exists prev prev' next,
       segments !! (k - 1) = Some prev
       /\ flip_segments mn mx segments !! (k - 1) = Some prev'
       /\ segments !! (k + 1) = Some next
       /\ should_flip mn mx prev' (l, indices) next = true
       /\ flip_segments mn mx segments !! k = Some (new_label l, indices).
Proof.
  intros Hk Hch. pose proof (lookup_lt_Some _ _ _ Hk) as Hlt.
  destruct (decide (k = 0 \/ length segments <= S k)) as [Hout|Hin].
  { rewrite flip_segments_outside in Hch by done. done. }
  split; [lia|]. split; [lia|].
  destruct (segments !! (k + 1)) as [next|] eqn:Hn;
    [|apply lookup_ge_None in Hn; lia].
  destruct (segments !! (k - 1)) as [prev|] eqn:Hp;
    [|apply lookup_ge_None in Hp; lia].
  destruct (flip_segments mn mx segments !! (k - 1)) as [prev'|] eqn:Hp';
    [|apply lookup_ge_None in Hp'; rewrite flip_segments_length in Hp'; lia].
  pose proof (flip_segments_interior mn mx segments k prev' (l, indices) next
                ltac:(lia) Hk Hn Hp') as Hfin.
  unfold flipped_segment in Hfin.
  destruct (should_flip mn mx prev' (l, indices) next) eqn:Hflip; [|congruence].
  by exists prev, prev', next.
Qed.

Lemma changed_chunk_in_flipped_run (p0 : label) (rest : list label) (mn mx : Z) :
  let predictions := p0 :: rest in
  let segments := segments_of predictions in
  exists corrected,
    apply_forgiving_heuristic predictions mn mx = Ok corrected
    /\ forall j, corrected !! j <> predictions !! j ->
         exists k l indices prev next,
           segments !! k = Some (l, indices) /\ j ∈ indices
           /\ 0 < k
           /\ segments !! (k - 1) = Some prev
           /\ segments !! (k + 1) = Some next
           /\ (Z.of_nat (length indices) <= mx)%Z
           /\ (mn <= Z.of_nat (length prev.2))%Z
           /\ (mn <= Z.of_nat (length next.2))%Z
           /\ predictions !! j = Some l
           /\ corrected !! j = Some (new_label l).
Proof.
  intros predictions segments. eexists. split; [reflexivity|].
  intros j Hch.
  assert (j < length predictions) as Hj.
  { destruct (decide (j < length predictions)) as [?|Hge]; [done|].
    exfalso. apply Hch.
    rewrite (proj2 (lookup_ge_None predictions j)) by lia.
    apply lookup_ge_None.
    rewrite (heuristic_length predictions _ mn mx eq_refl). lia. }
  assert (j ∈ segment_indices segments) as Hin.
  { unfold segments, predictions. simpl.
    rewrite indices_group_segments, elem_of_seq. simpl in Hj. lia. }
  apply segment_of_index in Hin as (k & l & indices & Hk & Hjk).
  pose proof (predictions_lookup _ _ _ _ _ _ Hk Hjk) as Hpj.
  assert (flip_segments mn mx segments !! k <> Some (l, indices)) as Hne.
  { intros Hsame. apply Hch. fold predictions in Hpj. rewrite Hpj.
    by eapply corrected_lookup. }
  destruct (flip_segments_changed mn mx segments k l indices Hk Hne)
    as (Hk0 & _ & prev & prev' & next & Hp & Hp' & Hn & Hflip & Hfin).
  apply should_flip_true in Hflip as (Hshort & _ & _ & Hprev & Hnext). simpl in *.
  rewrite (flip_segments_same_indices _ _ _ _ _ _ Hp Hp') in Hprev.
  exists k, l, indices, prev, next. repeat split; try done.
  by eapply corrected_lookup.
Qed.

(** A chunk whose label the heuristic changes lies in an interior segment of
    at most [max_flip_length] chunks whose two neighbours have at least
    [min_surround_chunks] chunks, and its new label is the one [new_label]
    computes from its prediction; every other chunk keeps its prediction. *)
Theorem heuristic_changes_only_short_surrounded_runs (p0 : label) (rest : list label)
    (mn mx : Z) :
  let predictions := p0 :: rest in
  let segments := segments_of predictions in
  exists corrected,
    apply_forgiving_heuristic predictions mn mx = Ok corrected
    /\ forall j, corrected !! j <> predictions !! j ->
         exists k l indices prev next,
           segments !! k = Some (l, indices) /\ j ∈ indices
           /\ 0 < k
           /\ segments !! (k - 1) = Some prev
           /\ segments !! (k + 1) = Some next
           /\ (Z.of_nat (length indices) <= mx)%Z
           /\ (mn <= Z.of_nat (length prev.2))%Z
           /\ (mn <= Z.of_nat (length next.2))%Z
           /\ predictions !! j = Some l
           /\ corrected !! j = Some (new_label l).
Proof. apply changed_chunk_in_flipped_run. Qed.

(** The heuristic never produces [None]: a chunk that has no category after
    the correction had none before, and a sequence of categories stays one. *)
Theorem heuristic_introduces_no_unknown (predictions corrected : list label)
    (mn mx : Z) :
  apply_forgiving_heuristic predictions mn mx = Ok corrected ->
  (forall j, corrected !! j = Some Unknown -> predictions !! j = Some Unknown)
  /\ (Forall (fun l : label => l <> Unknown) predictions ->
      Forall (fun l : label => l <> Unknown) corrected).
Proof.
  intros Hh.
  assert (forall j, corrected !! j = Some Unknown -> predictions !! j = Some Unknown) as H1.
  { destruct predictions as [|p0 rest]; [done|].
    destruct (changed_chunk_in_flipped_run p0 rest mn mx)
      as (corrected' & Hh' & Hch).
    rewrite Hh in Hh'. inversion Hh'; subst corrected'.
    intros j Hj.
    destruct (decide (corrected !! j = (p0 :: rest) !! j)) as [<-|Hne]; [done|].
    destruct (Hch j Hne) as (k & l & idx & prev & next & _ & _ & _ & _ & _ & _ & _ & _ & _ & Hnew).
    rewrite Hj in Hnew. unfold new_label in Hnew. by destruct (label_eqb l (Some A)). }
  split; [done|].
  rewrite !Forall_lookup. intros Hall j l Hj ->.
  eapply (Hall j None); [by apply H1|done].
Qed.

Lemma heuristic_introduces_no_unknown_witness :
  Forall (fun l : label => l <> Unknown) [Some B; Some B; Some B; Some B; Some B; Some B; Some B].
Proof.
  apply (heuristic_introduces_no_unknown
           [Some B; Some B; Some B; Some A; Some B; Some B; Some B] _ 3 2 eq_refl).
  repeat constructor; discriminate.
Defined.

(** With [max_flip_length] below 1 no run is short enough: the heuristic
    returns its input. *)
Theorem heuristic_disabled_by_zero_flip_length (predictions : list label) (mn mx : Z) :
  predictions <> [] -> (mx < 1)%Z ->
  apply_forgiving_heuristic predictions mn mx = Ok predictions.
Proof.
  intros Hne Hmx. destruct predictions as [|p0 rest]; [done|].
  destruct (changed_chunk_in_flipped_run p0 rest mn mx)
    as (corrected & Hh & Hch).
  rewrite Hh. f_equal. apply list_eq. intros j.
  destruct (decide (corrected !! j = (p0 :: rest) !! j)) as [?|Hdiff]; [done|].
  destruct (Hch j Hdiff) as (k & l & idx & prev & next & Hk & Hj & _ & _ & _ & Hshort & _).
  pose proof (nonempty_group_segments p0 rest) as Hnonempty.
  rewrite Forall_lookup in Hnonempty. specialize (Hnonempty k _ Hk). simpl in Hnonempty.
  destruct idx; [done|]. simpl in Hshort. lia.
Qed.

Lemma heuristic_disabled_by_zero_flip_length_witness :
  apply_forgiving_heuristic [Some B; Some B; Some B; Some A; Some B; Some B; Some B] 3 0
  = Ok [Some B; Some B; Some B; Some A; Some B; Some B; Some B].
Proof.
  apply (heuristic_disabled_by_zero_flip_length
           [Some B; Some B; Some B; Some A; Some B; Some B; Some B] 3 0);
    [discriminate|lia].
Defined.

Lemma category_neq_other (c c' : category) : c' <> c -> c' = other_category c.
Proof. by destruct c, c'. Qed.

(** When every prediction is a category, a run that is flipped takes the
    label of the two runs around it, and those two keep theirs: the three
    become one run, and no two adjacent runs are both flipped. *)
Theorem flip_merges_run_with_neighbours (predictions : list label) (mn mx : Z)
    (k : nat) (c : category) (indices : list nat) :
  Forall (fun l : label => l <> Unknown) predictions ->
  segments_of predictions !! k = Some (Some c, indices) ->
  flip_segments mn mx (segments_of predictions) !! k
    = Some (Some (other_category c), indices) ->
  exists before after,
    segments_of predictions !! (k - 1) = Some (Some (other_category c), before)
    /\ segments_of predictions !! (k + 1) = Some (Some (other_category c), after)
    /\ flip_segments mn mx (segments_of predictions) !! (k - 1)
       = Some (Some (other_category c), before)
    /\ flip_segments mn mx (segments_of predictions) !! (k + 1)
       = Some (Some (other_category c), after).
Proof.
  intros Hall Hk Hfin.
  destruct predictions as [|p0 rest]; [done|]. simpl in *.
  set (segments := group_segments p0 rest) in *.
  assert (forall k' l idx, segments !! k' = Some (l, idx) -> exists c', l = Some c') as Hcat.
  { intros k' l idx Hk'. apply segment_label_is_prediction in Hk'.
    rewrite Forall_forall in Hall. specialize (Hall _ Hk').
    destruct l as [c'|]; [by exists c'|done]. }
  assert (flip_segments mn mx segments !! k <> Some (Some c, indices)) as Hne.
  { rewrite Hfin. intros [= H]. by apply (other_category_neq c). }
  destruct (flip_segments_changed mn mx segments k _ _ Hk Hne)
    as (Hk0 & HkS & [pl pidx] & [pl' pidx'] & [nl nidx] & Hp & Hp' & Hn & Hflip & _).
  apply should_flip_true in Hflip as (_ & Hpl' & Hnl & _). simpl in *.
  destruct (Hcat _ _ _ Hp) as [cp ->]. destruct (Hcat _ _ _ Hn) as [cn ->].
  assert (cn = other_category c) as -> by (apply category_neq_other; congruence).
  assert (cp = other_category c) as ->.
  { apply category_neq_other. intros ->.
    pose proof (adjacent_group_segments p0 rest) as Hadj. fold segments in Hadj.
    apply (Hadj (k - 1) (Some c) (Some c)); [| |done].
    - by rewrite list_lookup_fmap, Hp.
    - replace (S (k - 1)) with k by lia. by rewrite list_lookup_fmap, Hk. }
  exists pidx, nidx. split; [done|]. split; [done|].
  split.
  - destruct (flip_segments_label mn mx segments _ _ _ Hp) as [H|H]; [done|].
    rewrite H in Hp'. inversion Hp'; subst.
    rewrite new_label_category in Hpl'.
    destruct c; simpl in Hpl'; done.
  - destruct (decide (flip_segments mn mx segments !! (k + 1)
                      = Some (Some (other_category c), nidx))) as [?|Hch]; [done|].
    destruct (flip_segments_changed mn mx segments (k + 1) _ _ Hn Hch)
      as (_ & _ & prev & prev' & next & _ & Hq' & _ & Hflip & _).
    replace (k + 1 - 1) with k in Hq' by lia.
    rewrite Hfin in Hq'. inversion Hq'; subst prev'.
    apply should_flip_true in Hflip as (_ & Hsame & _). simpl in Hsame. done.
Qed.

Lemma flip_merges_run_with_neighbours_witness :
  exists before after,
    segments_of [Some B; Some B; Some B; Some A; Some B; Some B; Some B] !! 0
      = Some (Some B, before)
    /\ flip_segments 3 2
         (segments_of [Some B; Some B; Some B; Some A; Some B; Some B; Some B]) !! 2
       = Some (Some B, after).
Proof.
  destruct (flip_merges_run_with_neighbours
              [Some B; Some B; Some B; Some A; Some B; Some B; Some B] 3 2 1 A [3])
    as (before & after & H1 & _ & _ & H4).
  - repeat constructor; discriminate.
  - reflexivity.
  - reflexivity.
  - by exists before, after.
Defined.

(** Stricter parameters only remove flips: when [max_flip_length] is lowered
    and [min_surround_chunks] raised, starting from a pair with
    [max_flip_length < min_surround_chunks], every chunk the stricter pair
    changes is changed, to the same label, by the laxer pair. *)
Theorem stricter_parameters_flip_less (predictions corrected corrected' : list label)
    (mn mx mn' mx' : Z) :
  (mx' <= mx)%Z -> (mx < mn)%Z -> (mn <= mn')%Z ->
  apply_forgiving_heuristic predictions mn mx = Ok corrected ->
  apply_forgiving_heuristic predictions mn' mx' = Ok corrected' ->
  forall j, corrected' !! j <> predictions !! j -> corrected !! j = corrected' !! j.
Proof.
  intros Hmx Hlt Hmn Hh Hh' j Hch.
  destruct predictions as [|p0 rest]; [done|].
  destruct (changed_chunk_in_flipped_run p0 rest mn' mx') as (c' & Hc' & Hchanged).
  rewrite Hh' in Hc'. inversion Hc'; subst c'.
  destruct (Hchanged j Hch)
    as (k & l & idx & prev & next & Hk & Hj & Hk0 & Hp & Hn & Hshort & Hprev & Hnext & _ & Hnew).
  simpl in Hk, Hp, Hn.
  pose proof (adjacent_group_segments p0 rest) as Hadj.
  assert (fst prev <> l) as Hpl.
  { apply (Hadj (k - 1)); [by rewrite list_lookup_fmap, Hp|].
    replace (S (k - 1)) with k by lia. by rewrite list_lookup_fmap, Hk. }
  assert (l <> fst next) as Hnl.
  { apply (Hadj k); [by rewrite list_lookup_fmap, Hk|].
    replace (S k) with (k + 1) by lia. by rewrite list_lookup_fmap, Hn. }
  assert (should_flip mn mx prev (l, idx) next = true) as Hflip.
  { apply should_flip_true. simpl. repeat split; (lia || congruence). }
  assert (flip_segments mn mx (group_segments p0 rest) !! k = Some (new_label l, idx)) as Hfin.
  { pose proof (lookup_lt_Some _ _ _ Hn) as Hlen.
    destruct (flip_segments mn mx (group_segments p0 rest) !! (k - 1)) as [prev'|] eqn:Hp';
      [|apply lookup_ge_None in Hp'; rewrite flip_segments_length in Hp'; lia].
    rewrite (flip_segments_interior mn mx _ k prev' (l, idx) next) by (done || lia).
    unfold flipped_segment.
    rewrite (should_flip_after_pass mn mx _ k prev prev' (l, idx) next) by (done || lia).
    by rewrite Hflip. }
  inversion Hh; subst corrected. rewrite Hnew.
  by eapply corrected_lookup.
Qed.

Lemma stricter_parameters_flip_less_witness :
  let predictions := [Some B; Some B; Some B; Some A; Some B; Some B; Some B; Some B;
                      Some A; Some A; Some B; Some B; Some B] in
  exists corrected corrected',
    apply_forgiving_heuristic predictions 3 2 = Ok corrected
    /\ apply_forgiving_heuristic predictions 3 1 = Ok corrected'
    /\ corrected !! 3 = corrected' !! 3.
Proof.
  intros predictions. eexists _, _. split; [reflexivity|]. split; [reflexivity|].
  apply (stricter_parameters_flip_less predictions _ _ 3 2 3 1);
    [lia|lia|lia|reflexivity|reflexivity|discriminate].
Defined.

(** ** Reconstruction: errors and what is written *)

Section ReconstructionEdges.
Context {sample : Type}.
Variable export_ok : category -> nat -> bool.
Implicit Types chunks : list (AudioSegment sample).
Implicit Types corrected : list label.

Lemma enumerate_from_app (i : nat) chunks1 chunks2 :
  enumerate_from i (chunks1 ++ chunks2)
  = enumerate_from i chunks1 ++ enumerate_from (i + length chunks1) chunks2.
Proof.
  revert i. induction chunks1 as [|chunk chunks1 IH]; intros i.
  - simpl. by rewrite Nat.add_0_r.
  - rewrite <- app_comm_cons, !enumerate_from_cons, IH. simpl.
    do 3 f_equal. lia.
Qed.

(** The loop over a first part whose labels are there and whose exports
    succeed goes on with the rest. *)
Lemma reconstruct_from_app_ok chunks1 chunks2 : forall i corrected desired combined files,
  (forall k, k < length chunks1 -> exists l, corrected !! (i + k) = Some l) ->
  (forall k c, k < length chunks1 -> corrected !! (i + k) = Some (Some c) ->
     export_ok c (i + k) = true) ->
  reconstruct_from export_ok i (chunks1 ++ chunks2) corrected desired combined files
  = reconstruct_from export_ok (i + length chunks1) chunks2 corrected desired
      (append_track combined
         (desired_chunks corrected desired (enumerate_from i chunks1)).*2)
      (files ++ exports_of corrected (enumerate_from i chunks1)).
Proof.
  induction chunks1 as [|chunk chunks1 IH]; intros i corrected desired combined files Hl Hx.
  - simpl. rewrite Nat.add_0_r, app_nil_r.
    destruct combined; simpl; by rewrite ?app_nil_r.
  - rewrite <- app_comm_cons, enumerate_from_cons, exports_of_cons, desired_chunks_cons.
    unfold export_of. simpl.
    destruct (Hl 0 ltac:(simpl; lia)) as [l Hi]. rewrite Nat.add_0_r in Hi. rewrite Hi.
    assert (forall k, k < length chunks1 -> exists l', corrected !! (S i + k) = Some l') as Hl'.
    { intros k Hk. replace (S i + k) with (i + S k) by lia. apply Hl. simpl. lia. }
    assert (forall k c, k < length chunks1 -> corrected !! (S i + k) = Some (Some c) ->
              export_ok c (S i + k) = true) as Hx'.
    { intros k c Hk. replace (S i + k) with (i + S k) by lia. apply Hx. simpl. lia. }
    assert (forall c, l = Some c -> export_ok c i = true) as Hhere.
    { intros c ->. specialize (Hx 0 c). rewrite Nat.add_0_r in Hx.
      apply Hx; [simpl; lia|done]. }
    assert (label_eqb l desired = bool_decide (Some l = Some desired)) as ->.
    { unfold label_eqb. apply bool_decide_ext. split; congruence. }
    replace (i + S (length chunks1)) with (S i + length chunks1) by lia.
    destruct l as [c|]; [rewrite (Hhere c eq_refl)|]; rewrite IH by done;
      case_decide; simpl.
    all: rewrite ?bool_decide_eq_true_2, ?bool_decide_eq_false_2 by done.
    all: rewrite ?append_track_cons, <- ?app_assoc; done.
Qed.

(** Only the labels of the chunks' own indices are read. *)
Lemma reconstruct_from_agree chunks : forall i corrected corrected' desired combined files,
  (forall k, k < length chunks -> corrected !! (i + k) = corrected' !! (i + k)) ->
  reconstruct_from export_ok i chunks corrected desired combined files
  = reconstruct_from export_ok i chunks corrected' desired combined files.
Proof.
  induction chunks as [|chunk chunks IH]; intros i corrected corrected' desired combined files H;
    [done|].
  simpl. pose proof (H 0 ltac:(simpl; lia)) as H0.
  rewrite Nat.add_0_r in H0. rewrite <- H0.
  assert (forall k, k < length chunks -> corrected !! (S i + k) = corrected' !! (S i + k)) as H'.
  { intros k Hk. replace (S i + k) with (i + S k) by lia. apply H. simpl. lia. }
  destruct (corrected !! i) as [[c|]|]; [|by apply IH|done].
  destruct (export_ok c i); [by apply IH|done].
Qed.

(** The files written and the exception raised do not depend on the desired
    label or on the track built so far. *)
Lemma reconstruct_from_files chunks : forall i corrected desired desired' combined combined' files,
  (reconstruct_from export_ok i chunks corrected desired combined files).1
  = (reconstruct_from export_ok i chunks corrected desired' combined' files).1
  /\ forall e,
       (reconstruct_from export_ok i chunks corrected desired combined files).2 = Raise e
       <-> (reconstruct_from export_ok i chunks corrected desired' combined' files).2 = Raise e.
Proof.
  induction chunks as [|chunk chunks IH];
    intros i corrected desired desired' combined combined' files; [done|].
  simpl. destruct (corrected !! i) as [[c|]|]; [|by apply IH|done].
  destruct (export_ok c i); [by apply IH|done].
Qed.

Lemma exports_of_ascending corrected chunks : forall i,
  StronglySorted lt (export_index <$> exports_of corrected (enumerate_from i chunks))
  /\ Forall (fun j => i <= j < i + length chunks)
       (export_index <$> exports_of corrected (enumerate_from i chunks)).
Proof.
  induction chunks as [|chunk chunks IH]; intros i.
  - split; constructor.
  - rewrite enumerate_from_cons, exports_of_cons. unfold export_of. simpl.
    destruct (IH (S i)) as [Hs Hf].
    assert (Forall (fun j => i <= j < i + S (length chunks))
              (export_index <$> exports_of corrected (enumerate_from (S i) chunks))) as Hf'
      by (eapply Forall_impl; [exact Hf|]; simpl; lia).
    destruct (corrected !! i) as [[c|]|]; [|done|done].
    simpl. split.
    + constructor; [done|]. eapply Forall_impl; [exact Hf|]. simpl. lia.
    + constructor; [lia|done].
Qed.

Lemma desired_payloads_are_directory_files corrected (c : category)
    (indexed : list (nat * AudioSegment sample)) :
  (desired_chunks corrected (Some c) indexed).*2
  = export_payload <$> filter (fun f : exported => export_dir f = c)
                         (exports_of corrected indexed).
Proof.
  induction indexed as [|ic indexed IH]; [done|].
  rewrite desired_chunks_cons, exports_of_cons. unfold export_of.
  destruct (corrected !! ic.1) as [[c'|]|].
  - rewrite filter_cons. cbn [export_dir].
    destruct (decide (c' = c)) as [->|Hne].
    + rewrite decide_True by done. rewrite !fmap_cons, IH. done.
    + rewrite decide_False by congruence. done.
  - rewrite decide_False by done. done.
  - rewrite decide_False by done. done.
Qed.

(** With fewer predictions than chunks, the loop writes the files of the
    chunks that have a prediction and then fails with [IndexError]. *)
Theorem reconstruct_audio_short_predictions corrected chunks (desired : label) :
  length corrected < length chunks ->
  (forall i c, corrected !! i = Some (Some c) -> export_ok c i = true) ->
  reconstruct_audio export_ok corrected chunks desired
  = (exports_of corrected (enumerate_from 0 (take (length corrected) chunks)),
     Raise IndexError).
Proof.
  intros Hlen Hx. unfold reconstruct_audio.
  rewrite <- (take_drop (length corrected) chunks) at 1.
  rewrite reconstruct_from_app_ok.
  - rewrite length_take, Nat.min_l by lia. simpl.
    destruct (drop (length corrected) chunks) as [|chunk rest] eqn:Hd.
    { apply (f_equal length) in Hd. rewrite length_drop in Hd. simpl in Hd. lia. }
    simpl. by rewrite (proj2 (lookup_ge_None corrected (length corrected))) by lia.
  - intros k Hk. rewrite length_take in Hk. apply lookup_lt_is_Some. simpl. lia.
  - intros k c _. apply Hx.
Qed.

(** The loop stops at the first export that fails: the files of the chunks
    before it are written, [OSError] escapes, and no chunk from the failing
    one on has a file. *)
Theorem reconstruct_audio_stops_at_failed_export corrected chunks (desired : label)
    (k : nat) (c : category) :
  k < length chunks ->
  corrected !! k = Some (Some c) ->
  export_ok c k = false ->
  (forall i c', i < k -> corrected !! i = Some (Some c') -> export_ok c' i = true) ->
  let files := exports_of corrected (enumerate_from 0 (take k chunks)) in
  reconstruct_audio export_ok corrected chunks desired = (files, Raise OSError)
  /\ Forall (fun f : exported => export_index f < k) files.
Proof.
  intros Hk Hc Hfail Hx files. split.
  - unfold reconstruct_audio.
    rewrite <- (take_drop k chunks) at 1.
    rewrite reconstruct_from_app_ok.
    + rewrite length_take, Nat.min_l by lia. simpl.
      destruct (drop k chunks) as [|chunk rest] eqn:Hd.
      { apply (f_equal length) in Hd. rewrite length_drop in Hd. simpl in Hd. lia. }
      simpl. by rewrite Hc, Hfail.
    + intros i Hi. rewrite length_take in Hi. apply lookup_lt_is_Some.
      apply lookup_lt_Some in Hc. simpl. lia.
    + intros i c' Hi. rewrite length_take in Hi. apply Hx. lia.
  - destruct (exports_of_ascending corrected (take k chunks) 0) as [_ Hrange].
    rewrite Forall_fmap in Hrange. eapply Forall_impl; [exact Hrange|].
    intros f. simpl. rewrite length_take. lia.
Qed.

(** Predictions beyond the last chunk are never read. *)
Theorem reconstruct_audio_ignores_extra_predictions corrected (extra : list label)
    chunks (desired : label) :
  length chunks <= length corrected ->
  reconstruct_audio export_ok (corrected ++ extra) chunks desired
  = reconstruct_audio export_ok corrected chunks desired.
Proof.
  intros Hlen. apply reconstruct_from_agree.
  intros k Hk. simpl. apply lookup_app_l. lia.
Qed.

(** The files written, and the exception if there is one, are the same for
    every desired label. *)
Theorem audit_export_independent_of_desired_label corrected chunks (desired desired' : label) :
  (reconstruct_audio export_ok corrected chunks desired).1
  = (reconstruct_audio export_ok corrected chunks desired').1
  /\ forall e,
       (reconstruct_audio export_ok corrected chunks desired).2 = Raise e
       <-> (reconstruct_audio export_ok corrected chunks desired').2 = Raise e.
Proof. apply reconstruct_from_files. Qed.

(** When the exports succeed, the files carry strictly ascending chunk
    indices, so no two of them share a name, and the combined track for a
    category is the concatenation, in the order written, of the files of that
    category's directory. *)
Theorem combined_track_is_desired_directory corrected chunks (c : category) :
  length corrected = length chunks ->
  (forall i c', i < length chunks -> corrected !! i = Some (Some c') ->
     export_ok c' i = true) ->
  exists files,
    reconstruct_audio export_ok corrected chunks (Some c)
    = (files,
       Ok (append_track None
             (export_payload <$> filter (fun f : exported => export_dir f = c) files)))
    /\ StronglySorted lt (export_index <$> files)
    /\ Forall (fun f : exported =>
                 chunks !! export_index f = Some (export_payload f)
                 /\ corrected !! export_index f = Some (Some (export_dir f))) files.
Proof.
  intros Hlen Hx. eexists. split; [|split].
  - rewrite reconstruct_audio_ok by done.
    by rewrite desired_payloads_are_directory_files.
  - apply exports_of_ascending.
  - apply Forall_forall. intros f Hf. unfold exports_of in Hf.
    apply list_elem_of_omap in Hf as ([i chunk] & Hin & Hf).
    apply elem_of_enumerate_from in Hin. unfold export_of in Hf. simpl in Hf.
    destruct (corrected !! i) as [[c'|]|] eqn:Hi; [|done|done].
    inversion Hf; subst f. by simpl.
Qed.

End ReconstructionEdges.

Lemma reconstruct_audio_short_predictions_witness :
  reconstruct_audio (fun _ _ => true) [Some B; Some A]
    ([[0]; [1]; [2]] : list (AudioSegment nat)) (Some B)
  = ([Exported B 0 [0]; Exported A 1 [1]], Raise IndexError).
Proof.
  apply (reconstruct_audio_short_predictions (fun _ _ => true) [Some B; Some A]
           ([[0]; [1]; [2]] : list (AudioSegment nat)) (Some B)).
  - simpl. lia.
  - reflexivity.
Defined.

Lemma reconstruct_audio_stops_at_failed_export_witness :
  reconstruct_audio (fun _ i => negb (Nat.eqb i 1)) [Some B; Some A; Some B]
    ([[0]; [1]; [2]] : list (AudioSegment nat)) (Some B)
  = ([Exported B 0 [0]], Raise OSError).
Proof.
  apply (reconstruct_audio_stops_at_failed_export (fun _ i => negb (Nat.eqb i 1))
           [Some B; Some A; Some B] ([[0]; [1]; [2]] : list (AudioSegment nat)) (Some B) 1 A).
  - simpl. lia.
  - reflexivity.
  - reflexivity.
  - intros i c' Hi _. by assert (i = 0) as -> by lia.
Defined.

Lemma reconstruct_audio_ignores_extra_predictions_witness :
  reconstruct_audio (fun _ _ => true) ([Some B; Some A] ++ [Some B; Unknown])
    ([[0]; [1]] : list (AudioSegment nat)) (Some B)
  = reconstruct_audio (fun _ _ => true) [Some B; Some A]
      ([[0]; [1]] : list (AudioSegment nat)) (Some B).
Proof.
  apply (reconstruct_audio_ignores_extra_predictions (fun _ _ => true)).
  simpl. lia.
Defined.

Lemma combined_track_is_desired_directory_witness :
  exists files,
    reconstruct_audio (fun _ _ => true) [Some B; Some A; Some B]
      ([[0]; [1]; [2]] : list (AudioSegment nat)) (Some B)
    = (files,
       Ok (append_track None
             (export_payload <$> filter (fun f : exported => export_dir f = B) files))).
Proof.
  destruct (combined_track_is_desired_directory (fun _ _ => true) [Some B; Some A; Some B]
              ([[0]; [1]; [2]] : list (AudioSegment nat)) B eq_refl
              (fun _ _ _ _ => eq_refl)) as (files & H & _).
  by exists files.
Defined.

(** ** The classifier adapter: what decides the label *)

Lemma char_in_app (c : ascii) (s1 s2 : string) :
  char_in c (s1 ++ s2)%string = char_in c s1 || char_in c s2.
Proof.
  induction s1 as [|c' s1 IH]; simpl; [done|].
  by destruct (Ascii.eqb c c').
Qed.

Lemma char_in_string_rev (c : ascii) (s : string) :
  char_in c (string_rev s) = char_in c s.
Proof.
  induction s as [|c' s IH]; simpl; [done|].
  rewrite char_in_app, IH. simpl.
  destruct (Ascii.eqb c c'), (char_in c s); done.
Qed.

Lemma char_in_lstrip (c : ascii) (s : string) :
  is_space c = false -> char_in c (lstrip s) = char_in c s.
Proof.
  intros Hc. induction s as [|c' s IH]; simpl; [done|].
  destruct (is_space c') eqn:Hs; [|done].
  rewrite IH. destruct (Ascii.eqb c c') eqn:E; [|done].
  apply Ascii.eqb_eq in E. congruence.
Qed.

Lemma char_in_strip (c : ascii) (s : string) :
  is_space c = false -> char_in c (strip s) = char_in c s.
Proof.
  intros Hc. unfold strip.
  by rewrite char_in_string_rev, char_in_lstrip, char_in_string_rev, char_in_lstrip.
Qed.

Section Adapter.
Context {sample : Type}.
Implicit Types oracle : nat -> AudioSegment sample -> subprocess_outcome.
Implicit Types temp_export_ok remove_ok : nat -> bool.
Implicit Types chunks : list (AudioSegment sample).

(** The label of a process that exited normally depends only on which of the
    letters occur anywhere in its output: [A] as soon as an ['A'] occurs, also
    when a ['B'] occurs too; [B] when only ['B'] occurs; [None] when neither
    does.  Stripping the output changes nothing. *)
Theorem run_inference_by_occurrence oracle (i : nat) (chunk : AudioSegment sample)
    (stdout : string) :
  oracle i chunk = Completed stdout ->
  run_inference oracle i chunk
  = Ok (if char_in "A"%char stdout then Some A
        else if char_in "B"%char stdout then Some B
        else Unknown).
Proof.
  intros Ho. unfold run_inference. rewrite Ho. cbv zeta.
  rewrite !char_in_strip by done.
  by destruct (char_in "A"%char stdout), (char_in "B"%char stdout).
Qed.


End Adapter.

Lemma run_inference_by_occurrence_witness :
  run_inference (fun _ (_ : AudioSegment nat) => Completed "  Class B, not A  ") 0 [0]
  = Ok (Some A).
Proof.
  apply (run_inference_by_occurrence
           (fun _ (_ : AudioSegment nat) => Completed "  Class B, not A  ") 0 [0]
           "  Class B, not A  ").
  reflexivity.
Defined.


(** ** [process_audio] as a whole *)

Section ProcessAudio.
Context {sample : Type}.
Variable oracle : nat -> AudioSegment sample -> subprocess_outcome.
Variable temp_export_ok remove_ok : nat -> bool.
Variable export_ok : category -> nat -> bool.
Variable output_ok : bool.
Implicit Types audio : AudioSegment sample.

Lemma split_chunks_positive audio (chunk_length_sec : Z) :
  (0 < chunk_length_sec)%Z ->
  let d := (chunk_length_sec * 1000)%Z in
  split_chunks audio chunk_length_sec
  = Ok (map (fun i : nat => take (Z.to_nat d) (drop (i * Z.to_nat d) audio))
          (seq 0 (Z.to_nat (audio_len audio / d)))).
Proof.
  intros Hpos d. set (T := audio_len audio).
  assert (0 < d)%Z as Hd by (unfold d; lia).
  assert (0 <= T)%Z as HT by (unfold T, audio_len; lia).
  pose proof (Z.div_pos T d HT Hd) as HN.
  pose proof (Z.mul_div_le T d Hd) as Hle.
  unfold split_chunks. fold d. fold T.
  destruct (d =? 0)%Z eqn:E; [apply Z.eqb_eq in E; lia|].
  f_equal. apply map_ext_in. intros i Hi. apply in_seq in Hi.
  rewrite audio_slice_inside by (fold T; nia).
  f_equal. f_equal. lia.
Qed.

Lemma collect_predictions_nil (order : list nat) :
  collect_predictions oracle temp_export_ok remove_ok [] order = Ok [].
Proof.
  unfold collect_predictions. simpl.
  induction order as [|i order IH]; [done|]. simpl. exact IH.
Qed.

Lemma length_concat_uniform (n : nat) (l : list (AudioSegment sample)) :
  Forall (fun chunk => length chunk = n) l -> length (concat l) = length l * n.
Proof.
  induction 1 as [|chunk l Hc Hl IH]; simpl; [done|].
  rewrite length_app, IH, Hc. lia.
Qed.


Lemma process_audio_from_chunks audio (chunk_length_sec : Z) (order : list nat)
    (chunks : list (AudioSegment sample)) (predictions : list label) :
  split_chunks audio chunk_length_sec = Ok chunks ->
  collect_predictions oracle temp_export_ok remove_ok chunks order = Ok predictions ->
  process_audio oracle temp_export_ok remove_ok export_ok output_ok
    audio chunk_length_sec order
  = correct_and_reconstruct export_ok output_ok predictions chunks.
Proof. intros Hsplit Hcollect. unfold process_audio. by rewrite Hsplit, Hcollect. Qed.


End ProcessAudio.


(** * Properties of [cut_segments.py] *)

(** ** Splitting an audio at its split points *)

Section SplitAudioProperties.
Context {sample : Type}.
Implicit Types audio : AudioSegment sample.

Variable segment_ok : nat -> bool.

Lemma save_segments_spec (segments : list (AudioSegment sample)) :
  forall idx files log,
    save_segments segment_ok idx segments files log
    = (files ++ filter (fun ic => segment_ok ic.1 = true) (enumerate_from idx segments),
       log ++ map (fun i => if segment_ok i then SavedSegment i else ErrorSaving i)
                (seq idx (length segments))).
Proof.
  induction segments as [|segment segments IH]; intros idx files log.
  - simpl. by rewrite !app_nil_r.
  - rewrite enumerate_from_cons, filter_cons. simpl.
    destruct (segment_ok idx) eqn:Hok; rewrite IH.
    + rewrite decide_True by done. by rewrite <- !app_assoc.
    + rewrite decide_False by done. by rewrite <- !app_assoc.
Qed.

(** Every segment whose export succeeds is saved under its number, counted
    from 1, whatever happened to the segments before it; the loop prints one
    line per segment and a failed export leaves no file. *)
Theorem split_file_saves_what_it_can audio (split_points : list Z) :
  let segments := split_segments audio split_points in
  let '(files, log) := split_file segment_ok audio split_points in
  (forall k segment, segments !! k = Some segment ->
     ((S k, segment) ∈ files <-> segment_ok (S k) = true))
  /\ length log = length segments
  /\ (forall k, k < length segments ->
        log !! k = Some (if segment_ok (S k) then SavedSegment (S k) else ErrorSaving (S k))).
Proof.
  intros segments. unfold split_file. fold segments.
  rewrite save_segments_spec. simpl. split; [|split].
  - intros k segment Hk. rewrite list_elem_of_filter. simpl.
    assert ((S k, segment) ∈ enumerate_from 1 segments) as Hin.
    { apply list_elem_of_lookup. exists k. apply enumerate_from_lookup. simpl.
      split; [lia|done]. }
    tauto.
  - by rewrite length_map, length_seq.
  - intros k Hk. rewrite list_lookup_fmap, lookup_seq_lt by done. done.
Qed.

End SplitAudioProperties.

(** ** Parsing the segments file *)

Lemma length_split_on (sep : ascii) (s : string) : 1 <= length (split_on sep s).
Proof.
  induction s as [|c s IH]; simpl; [done|].
  destruct (Ascii.eqb c sep); simpl; [lia|].
  destruct (split_on sep s); simpl; lia.
Qed.

Lemma split_on_without (sep : ascii) (s : string) :
  char_in sep s = false -> split_on sep s = [s].
Proof.
  induction s as [|c s IH]; simpl; [done|].
  rewrite (Ascii.eqb_sym sep c). destruct (Ascii.eqb c sep); [done|].
  intros H. by rewrite IH.
Qed.

Lemma split_on_field (sep : ascii) (field rest : string) :
  char_in sep field = false ->
  split_on sep (field ++ String sep rest)%string = field :: split_on sep rest.
Proof.
  induction field as [|c field IH]; simpl.
  - intros _. by rewrite Ascii.eqb_refl.
  - rewrite (Ascii.eqb_sym sep c). destruct (Ascii.eqb c sep); [done|].
    intros H. by rewrite IH.
Qed.

Section ParseSegmentsProperties.
Variable float : Type.
Variable py_int : string -> option Z.
Variable py_float : string -> option float.
Variable add_int_float : Z -> float -> option float.
Variable mul_1000 : float -> float.
Variable sorted : list float -> list float.

Local Abbreviation convert := (convert_time_to_seconds float py_int py_float add_int_float).
Local Abbreviation range := (parse_range float py_int py_float add_int_float mul_1000).
Local Abbreviation ranges := (parse_ranges float py_int py_float add_int_float mul_1000).
Local Abbreviation block := (parse_block float py_int py_float add_int_float mul_1000 sorted).
Local Abbreviation blocks := (parse_blocks float py_int py_float add_int_float mul_1000 sorted).
Local Abbreviation parse := (parse_segments float py_int py_float add_int_float mul_1000 sorted).
Local Abbreviation parse_from :=
  (parse_segments_from float py_int py_float add_int_float mul_1000 sorted).

Lemma parse_range_returned (lines : list string) (i j : nat) (ts ts' : list float) :
  range lines i j ts = Returned ts' ->
  i + j < length lines /\ exists a b, ts' = ts ++ [a; b].
Proof.
  unfold parse_range. intros H.
  destruct (lines !! (i + j)) as [line|] eqn:Hl; [|done].
  split; [by eapply lookup_lt_Some|].
  destruct (negb _); [done|].
  destruct (split_on "-" (strip line)) as [|start [|stop [|? ?]]]; try done.
  destruct (convert start); [|done|done].
  destruct (convert stop); [|done|done].
  inversion H. eauto.
Qed.

Lemma parse_ranges_returned (lines : list string) (i : nat) (js : list nat) :
  forall ts ts',
    ranges lines i js ts = Returned ts' ->
    length ts' = length ts + 2 * length js
    /\ forall j, j ∈ js -> i + j < length lines.
Proof.
  induction js as [|j js IH]; intros ts ts' H; simpl in H.
  - inversion H. split; [simpl; lia|]. by intros j ?%elem_of_nil.
  - destruct (range lines i j ts) as [ts1| |] eqn:Hr; [|done|done].
    apply parse_range_returned in Hr as (Hlt & a & b & ->).
    apply IH in H as [Hlen Hall]. split.
    + rewrite Hlen, length_app. simpl. lia.
    + intros j' [->|Hin]%elem_of_cons; [done|by apply Hall].
Qed.

Lemma parse_range_shift (before rest : list string) (i j : nat) (ts : list float) :
  range (before ++ rest) (length before + i) j ts = range rest i j ts.
Proof.
  unfold parse_range. rewrite lookup_app_r by lia.
  by replace (length before + i + j - length before) with (i + j) by lia.
Qed.

Lemma parse_ranges_shift (before rest : list string) (i : nat) (js : list nat) :
  forall ts, ranges (before ++ rest) (length before + i) js ts = ranges rest i js ts.
Proof.
  induction js as [|j js IH]; intros ts; simpl; [done|].
  rewrite parse_range_shift. destruct (range rest i j ts); [apply IH|done|done].
Qed.

Lemma parse_block_shift (before rest : list string) (d : gmap string (list float)) (i : nat) :
  block (before ++ rest) d (length before + i) = block rest d i.
Proof.
  unfold parse_block. rewrite lookup_app_r by lia.
  replace (length before + i - length before) with i by lia.
  by rewrite parse_ranges_shift.
Qed.

Lemma parse_blocks_shift (before rest : list string) (starts : list nat) :
  forall d, blocks (before ++ rest) (map (fun i => length before + i) starts) d
            = blocks rest starts d.
Proof.
  induction starts as [|i starts IH]; intros d; simpl; [done|].
  rewrite parse_block_shift. destruct (block rest d i); [apply IH|done|done].
Qed.

Lemma parse_range_local (first rest : list string) (j : nat) (ts : list float) :
  j < length first -> range (first ++ rest) 0 j ts = range first 0 j ts.
Proof. intros Hj. unfold parse_range. by rewrite lookup_app_l by (simpl; lia). Qed.

Lemma parse_block_local (first rest : list string) (d : gmap string (list float)) :
  length first = 6 -> block (first ++ rest) d 0 = block first d 0.
Proof.
  intros Hlen. unfold parse_block. rewrite lookup_app_l by lia.
  destruct (first !! 0); [|done]. destruct (match_header _); [|done].
  simpl. rewrite !parse_range_local by lia.
  destruct (range first 0 1 []) as [t1| |]; [|done|done].
  rewrite !parse_range_local by lia.
  destruct (range first 0 2 t1) as [t2| |]; [|done|done].
  rewrite !parse_range_local by lia.
  destruct (range first 0 3 t2) as [t3| |]; [|done|done].
  rewrite !parse_range_local by lia.
  destruct (range first 0 4 t3) as [t4| |]; [|done|done].
  by rewrite !parse_range_local by lia.
Qed.

Lemma block_starts_next (n : nat) :
  block_starts (6 + n) = 0 :: map (fun i => 6 + i) (block_starts n).
Proof.
  unfold block_starts.
  replace ((6 + n + 5) / 6) with (S ((n + 5) / 6)).
  2:{ replace (6 + n + 5) with (n + 5 + 1 * 6) by lia.
      rewrite Nat.div_add by lia. lia. }
  simpl. f_equal. rewrite <- seq_shift, !map_map.
  apply map_ext. intros k. lia.
Qed.

Lemma parse_from_app (first rest : list string) (d : gmap string (list float)) :
  length first = 6 ->
  parse_from d (first ++ rest)
  = match parse_from d first with
    | Returned d' => parse_from d' rest
    | Exited code => Exited code
    | Raised e => Raised e
    end.
Proof.
  intros Hlen. unfold parse_segments_from.
  rewrite length_app, Hlen, block_starts_next.
  replace (block_starts 6) with [0] by done. cbn [parse_blocks].
  rewrite parse_block_local by done.
  destruct (block first d 0) as [d'| |]; [|done|done].
  rewrite <- (parse_blocks_shift first rest). f_equal.
  apply map_ext. intros i. lia.
Qed.

(** The file is read six lines at a time and each block on its own: the
    first six lines are parsed without a look at the rest, and the rest is
    parsed as a file of its own, from the dictionary the block left. *)
Theorem parse_segments_block_by_block (first rest : list string)
    (d : gmap string (list float)) :
  length first = 6 ->
  parse_segments_from float py_int py_float add_int_float mul_1000 sorted d
    (first ++ rest)
  = match parse_segments_from float py_int py_float add_int_float mul_1000 sorted
            d first with
    | Returned d' =>
        parse_segments_from float py_int py_float add_int_float mul_1000 sorted d' rest
    | Exited code => Exited code
    | Raised e => Raised e
    end.
Proof. apply parse_from_app. Qed.

(** Six lines whose first, a line of ASCII characters, is not a header in
    brackets are passed over together, whatever the five others hold. *)
Theorem parse_segments_skips_block_without_header (first rest : list string)
    (line : string) :
  length first = 6 ->
  first !! 0 = Some line ->
  ascii_only line = true ->
  match_header (strip line) = None ->
  parse_segments float py_int py_float add_int_float mul_1000 sorted (first ++ rest) = parse_segments float py_int py_float add_int_float mul_1000 sorted rest.
Proof.
  intros Hlen Hline _ Hno. unfold parse_segments.
  rewrite length_app, Hlen, block_starts_next. cbn [parse_blocks].
  rewrite parse_block_local by done.
  unfold parse_block at 1. rewrite Hline, Hno.
  rewrite <- (parse_blocks_shift first rest). f_equal.
  apply map_ext. intros i. lia.
Qed.

Lemma parse_blocks_app (lines : list string) (starts1 starts2 : list nat) :
  forall d,
    blocks lines (starts1 ++ starts2) d
    = match blocks lines starts1 d with
      | Returned d' => blocks lines starts2 d'
      | Exited code => Exited code
      | Raised e => Raised e
      end.
Proof.
  induction starts1 as [|i starts1 IH]; intros d; simpl; [done|].
  destruct (block lines d i); [apply IH|done|done].
Qed.

Lemma parse_block_header (lines : list string) (d d' : gmap string (list float))
    (i : nat) (line filename : string) :
  lines !! i = Some line ->
  match_header (strip line) = Some filename ->
  block lines d i = Returned d' ->
  i + 5 < length lines.
Proof.
  unfold parse_block. intros -> -> H.
  destruct (ranges lines i [1; 2; 3; 4; 5] []) as [ts| |] eqn:Hr; [|done|done].
  apply parse_ranges_returned in Hr as [_ Hall]. apply (Hall 5). set_solver.
Qed.

(** A file that ends inside a block with a header never yields a
    dictionary. *)
Theorem parse_segments_truncated_block (lines : list string) (line filename : string)
    (d : gmap string (list float)) :
  lines !! (6 * (length lines / 6)) = Some line ->
  match_header (strip line) = Some filename ->
  parse_segments float py_int py_float add_int_float mul_1000 sorted lines <> Returned d.
Proof.
  intros Hline Hhead. pose proof (lookup_lt_Some _ _ _ Hline) as Hlt.
  set (q := length lines / 6) in *.
  pose proof (Nat.div_mod_eq (length lines) 6) as Hdm. fold q in Hdm.
  pose proof (Nat.mod_upper_bound (length lines) 6 ltac:(lia)) as Hmod.
  unfold parse_segments, block_starts.
  replace ((length lines + 5) / 6) with (q + 1).
  2:{ apply Nat.div_unique with (r := length lines mod 6 - 1); lia. }
  rewrite seq_app, map_app, parse_blocks_app. cbn [seq map parse_blocks].
  destruct (blocks lines (map (fun k => 6 * k) (seq 0 q)) ∅) as [d0| |]; [|done|done].
  replace (0 + q) with q by lia.
  destruct (block lines d0 (6 * q)) as [d1| |] eqn:Hb; [|done|done].
  apply (parse_block_header _ _ _ _ _ _ Hline Hhead) in Hb. lia.
Qed.

Lemma split_on_two_parts (sep : ascii) (s : string) :
  2 <= length (split_on sep s) -> char_in sep s = true.
Proof.
  induction s as [|c s IH]; simpl; [lia|].
  rewrite (Ascii.eqb_sym sep c). destruct (Ascii.eqb c sep); [done|].
  intros H. apply IH. destruct (split_on sep s); simpl in *; lia.
Qed.

Lemma parse_ranges_stop (lines : list string) (i j : nat) (stop : outcome (list float))
    (js1 js2 : list nat) :
  (forall ts, range lines i j ts = stop) ->
  (forall ts, stop <> Returned ts) ->
  forall ts,
    (forall j', j' ∈ js1 -> forall ts1, exists ts2, range lines i j' ts1 = Returned ts2) ->
    ranges lines i (js1 ++ j :: js2) ts = stop.
Proof.
  intros Hstop Hnot. induction js1 as [|j1 js1 IH]; intros ts Hok; simpl.
  - rewrite Hstop. destruct stop; [by destruct (Hnot v)|done|done].
  - destruct (Hok j1 ltac:(by left) ts) as [ts2 ->].
    apply IH. intros j' Hj'. apply Hok. by right.
Qed.

Lemma parse_range_any_timestamps (lines : list string) (i j : nat) (ts ts0 ts' : list float) :
  range lines i j ts0 = Returned ts' -> exists ts2, range lines i j ts = Returned ts2.
Proof.
  unfold parse_range.
  destruct (lines !! (i + j)); [|done]. destruct (negb _); [done|].
  destruct (split_on "-" (strip s)) as [|start [|stop [|? ?]]]; try done.
  destruct (convert start); [|done|done].
  destruct (convert stop); [|done|done]. eauto.
Qed.

(** In a block with a header, the first line that is not a range decides how
    the run ends: without a ['-'] the program exits with status 1; with two
    or more, the unpacking of [split('-')] fails and [ValueError] escapes. *)
Theorem parse_segments_malformed_range (first rest : list string)
    (header filename line : string) (j : nat) (d : gmap string (list float)) :
  length first = 6 ->
  first !! 0 = Some header ->
  match_header (strip header) = Some filename ->
  1 <= j <= 5 ->
  first !! j = Some line ->
  (forall j', 1 <= j' < j ->
     exists ts, parse_range float py_int py_float add_int_float mul_1000 first 0 j' []
                = Returned ts) ->
  (char_in "-"%char (strip line) = false ->
   parse_segments_from float py_int py_float add_int_float mul_1000 sorted d
     (first ++ rest) = Exited 1)
  /\ (3 <= length (split_on "-"%char (strip line)) ->
      parse_segments_from float py_int py_float add_int_float mul_1000 sorted d
        (first ++ rest) = Raised ValueError).
Proof.
  intros Hlen Hh Hm Hj Hline Hbefore.
  assert (forall stop : outcome (list float),
            (forall ts, range first 0 j ts = stop) ->
            (forall ts, stop <> Returned ts) ->
            forall stop' : outcome (gmap string (list float)),
              match stop with
              | Returned _ => True
              | Exited code => stop' = Exited code
              | Raised e => stop' = Raised e
              end ->
              parse_from d (first ++ rest) = stop') as Hgen.
  { intros stop Hstop Hnot stop' Hsame.
    rewrite parse_from_app by done.
    unfold parse_segments_from. rewrite Hlen.
    replace (block_starts 6) with [0] by done. cbn [parse_blocks].
    unfold parse_block. rewrite Hh, Hm.
    replace [1; 2; 3; 4; 5] with (seq 1 (j - 1) ++ j :: seq (S j) (5 - j)).
    2:{ destruct Hj as [H1 H5].
        destruct j as [|[|[|[|[|[|j]]]]]]; try lia; reflexivity. }
    rewrite (parse_ranges_stop first 0 j stop); [| done | done |].
    - destruct stop; [by destruct (Hnot v)|by rewrite Hsame|by rewrite Hsame].
    - intros j' Hj' ts1. apply elem_of_seq in Hj'.
      destruct (Hbefore j' ltac:(lia)) as [ts Hts].
      by eapply parse_range_any_timestamps. }
  split.
  - intros Hno. apply (Hgen (Exited 1)); [|done|done].
    intros ts. unfold parse_range. simpl. by rewrite Hline, Hno.
  - intros Hmany. apply (Hgen (Raised ValueError)); [|done|done].
    intros ts. unfold parse_range. simpl. rewrite Hline.
    rewrite split_on_two_parts by lia. simpl.
    destruct (split_on "-" (strip line)) as [|p1 [|p2 [|p3 ps]]]; simpl in Hmany; (lia || done).
Qed.

(** What [convert_time_to_seconds] computes from fields that hold no colon:
    hours, minutes and seconds of ["h:m:s"], no hours for ["m:s"], seconds
    alone for ["s"]; a field [int] or [float] rejects, or a fourth field,
    ends the program with status 1, and [ValueError] never escapes. *)
Theorem convert_time_to_seconds_fields (h m sec : string) :
  char_in ":"%char h = false ->
  char_in ":"%char m = false ->
  char_in ":"%char sec = false ->
  let total (hours minutes : option Z) : outcome float :=
    match hours, minutes, py_float sec with
    | Some hv, Some mv, Some sv =>
        match add_int_float (hv * 3600 + mv * 60)%Z sv with
        | Some t => Returned t
        | None => Raised OverflowError
        end
    | _, _, _ => Exited 1
    end in
  convert_time_to_seconds float py_int py_float add_int_float
    (h ++ String ":" (m ++ String ":" sec))%string = total (py_int h) (py_int m)
  /\ convert_time_to_seconds float py_int py_float add_int_float
       (m ++ String ":" sec)%string = total (Some 0%Z) (py_int m)
  /\ convert_time_to_seconds float py_int py_float add_int_float sec
     = total (Some 0%Z) (Some 0%Z)
  /\ (forall more : string,
        convert_time_to_seconds float py_int py_float add_int_float
          (more ++ String ":" (h ++ String ":" (m ++ String ":" sec)))%string = Exited 1)
  /\ (forall time_str : string,
        convert_time_to_seconds float py_int py_float add_int_float time_str
        <> Raised ValueError).
Proof.
  intros Hh Hm Hs total. unfold convert_time_to_seconds.
  split; [|split; [|split; [|split]]].
  - rewrite !split_on_field, split_on_without by done. unfold total.
    destruct (py_int h), (py_int m), (py_float sec); done.
  - rewrite split_on_field, split_on_without by done. unfold total.
    destruct (py_int m), (py_float sec); done.
  - rewrite split_on_without by done. done.
  - intros more.
    assert (exists p1 rest, split_on ":" (more ++ String ":" (h ++ String ":"
                                (m ++ String ":" sec)))%string
                            = p1 :: rest ++ [h; m; sec]) as (p1 & rest & ->).
    { induction more as [|c more (p1 & rest & IH)]; simpl.
      - exists EmptyString, []. simpl.
        by rewrite !split_on_field, split_on_without by done.
      - destruct (Ascii.eqb c ":"); [by exists EmptyString, (p1 :: rest); rewrite IH|].
        rewrite IH. by exists (String c p1), rest. }
    destruct rest as [|p2 [|p3 [|p4 rest]]]; simpl; done.
  - intros time_str.
    destruct (split_on ":" time_str) as [|p1 [|p2 [|p3 [|p4 ps]]]]; try done.
    + destruct (py_float p1); [|done]. by destruct (add_int_float _ _).
    + destruct (py_int p1), (py_float p2); try done. by destruct (add_int_float _ _).
    + destruct (py_int p1), (py_int p2), (py_float p3); try done.
      by destruct (add_int_float _ _).
Qed.

(** A complete block with a header sets the entry of its own file name,
    replacing an earlier entry of that name, and leaves every other entry of
    the dictionary alone; the split points it stores do not depend on what
    the dictionary held. *)
Theorem parse_segments_block_sets_own_entry (first : list string)
    (header filename : string) (d d' : gmap string (list float)) :
  length first = 6 ->
  first !! 0 = Some header ->
  match_header (strip header) = Some filename ->
  parse_segments_from float py_int py_float add_int_float mul_1000 sorted d first
  = Returned d' ->
  exists split_points,
    d' = <[filename := split_points]> d
    /\ (forall other, other <> filename -> d' !! other = d !! other)
    /\ forall d0,
         parse_segments_from float py_int py_float add_int_float mul_1000 sorted d0 first
         = Returned (<[filename := split_points]> d0).
Proof.
  intros Hlen Hh Hm. unfold parse_segments_from. rewrite Hlen.
  replace (block_starts 6) with [0] by done. cbn [parse_blocks].
  unfold parse_block. rewrite Hh, Hm.
  destruct (ranges first 0 [1; 2; 3; 4; 5] []) as [ts| |] eqn:Hr; [|done|done].
  pose proof (parse_ranges_returned _ _ _ _ _ Hr) as [Hts _]. simpl in Hts.
  rewrite !decide_False by lia. intros [= <-].
  eexists. split; [done|]. split.
  - intros other Hne. rewrite lookup_insert_ne by done. done.
  - intros d0. rewrite decide_False by lia. done.
Qed.

Hypothesis sorted_permutation : forall l, sorted l ≡ₚ l.

(** A block that returns leaves the dictionary as it was or adds one entry of
    eight split points. *)
Lemma parse_block_returned (lines : list string) (d d' : gmap string (list float))
    (i : nat) :
  block lines d i = Returned d' ->
  d' = d \/ exists filename split_points,
              d' = <[filename := split_points]> d
              /\ length split_points = 8
              /\ i + 5 < length lines.
Proof.
  unfold parse_block. intros H.
  destruct (lines !! i) as [line|]; [|inversion H; by left].
  destruct (match_header (strip line)) as [filename|]; [|inversion H; by left].
  destruct (ranges lines i [1; 2; 3; 4; 5] []) as [ts| |] eqn:Hr; [|done|done].
  apply parse_ranges_returned in Hr as [Hlen Hall]. simpl in Hlen.
  destruct (decide (length ts < 2)) as [?|_]; [lia|].
  inversion H. right. eexists _, _. split; [done|]. split.
  - rewrite sorted_permutation, length_drop, length_take. lia.
  - apply (Hall 5). set_solver.
Qed.

Lemma parse_blocks_entries (lines : list string) (starts : list nat) :
  forall d d',
    blocks lines starts d = Returned d' ->
    (forall f sp, d !! f = Some sp -> length sp = 8) ->
    forall f sp, d' !! f = Some sp -> length sp = 8.
Proof.
  induction starts as [|i starts IH]; intros d d' H Hd; simpl in H.
  - by inversion H; subst.
  - destruct (block lines d i) as [d1| |] eqn:Hb; [|done|done].
    eapply IH; [exact H|].
    apply parse_block_returned in Hb as [->|(f0 & sp0 & -> & Hlen & _)]; [done|].
    intros f sp. rewrite lookup_insert. case_decide; [|by apply Hd].
    intros [= <-]. done.
Qed.


End ParseSegmentsProperties.


Lemma parse_segments_block_by_block_witness :
  parse_segments_from Z (fun _ => Some 0%Z) (fun _ => Some 0%Z)
    (fun a b => Some (a + b)%Z) (fun x => (x * 1000)%Z) (fun l => l) ∅
    (["[talk]"%string; "0-1"%string; "1-2"%string; "2-3"%string; "3-4"%string; "4-5"%string] ++ ["[next]"%string; "0-1"%string])
  = Exited 1.
Proof.
  rewrite (parse_segments_block_by_block Z (fun _ => Some 0%Z) (fun _ => Some 0%Z)
             (fun a b => Some (a + b)%Z) (fun x => (x * 1000)%Z) (fun l => l)
             ["[talk]"%string; "0-1"%string; "1-2"%string; "2-3"%string; "3-4"%string; "4-5"%string]
             ["[next]"%string; "0-1"%string] ∅ eq_refl).
  reflexivity.
Defined.

Lemma parse_segments_skips_block_without_header_witness :
  parse_segments Z (fun _ => Some 0%Z) (fun _ => Some 0%Z)
    (fun a b => Some (a + b)%Z) (fun x => (x * 1000)%Z) (fun l => l)
    (["talk"%string; "0-1"%string; "not a range"%string; "2-3"%string; "3-4"%string; "4-5"%string] ++ [])
  = Returned ∅.
Proof.
  rewrite (parse_segments_skips_block_without_header Z (fun _ => Some 0%Z)
             (fun _ => Some 0%Z) (fun a b => Some (a + b)%Z) (fun x => (x * 1000)%Z)
             (fun l => l)
             ["talk"%string; "0-1"%string; "not a range"%string; "2-3"%string; "3-4"%string; "4-5"%string] [] "talk"%string
             eq_refl eq_refl eq_refl eq_refl).
  reflexivity.
Defined.

Lemma parse_segments_truncated_block_witness :
  parse_segments Z (fun _ => Some 0%Z) (fun _ => Some 0%Z)
    (fun a b => Some (a + b)%Z) (fun x => (x * 1000)%Z) (fun l => l)
    ["[talk]"%string; "0-1"%string; "1-2"%string]
  <> Returned ∅.
Proof.
  apply (parse_segments_truncated_block Z (fun _ => Some 0%Z) (fun _ => Some 0%Z)
           (fun a b => Some (a + b)%Z) (fun x => (x * 1000)%Z) (fun l => l)
           ["[talk]"%string; "0-1"%string; "1-2"%string] "[talk]"%string "talk"%string ∅);
    reflexivity.
Defined.

Lemma parse_segments_malformed_range_witness :
  parse_segments_from Z (fun _ => Some 0%Z) (fun _ => Some 0%Z)
    (fun a b => Some (a + b)%Z) (fun x => (x * 1000)%Z) (fun l => l) ∅
    (["[talk]"%string; "0-1"%string; "1-2-3"%string; "2-3"%string; "3-4"%string; "4-5"%string] ++ [])
  = Raised ValueError.
Proof.
  apply (parse_segments_malformed_range Z (fun _ => Some 0%Z) (fun _ => Some 0%Z)
           (fun a b => Some (a + b)%Z) (fun x => (x * 1000)%Z) (fun l => l)
           ["[talk]"%string; "0-1"%string; "1-2-3"%string; "2-3"%string; "3-4"%string; "4-5"%string] []
           "[talk]"%string "talk"%string "1-2-3"%string 2 ∅).
  - reflexivity.
  - reflexivity.
  - reflexivity.
  - lia.
  - reflexivity.
  - intros j' Hj'. assert (j' = 1) as -> by lia. by eexists.
  - simpl. lia.
Defined.

Lemma convert_time_to_seconds_fields_witness :
  convert_time_to_seconds Z (fun s => Some (Z.of_nat (String.length s)))
    (fun s => Some (Z.of_nat (String.length s))) (fun a b => Some (a + b)%Z)
    ("1" ++ String ":" ("02" ++ String ":" "003"))%string
  = Returned 3723%Z.
Proof.
  apply (convert_time_to_seconds_fields Z (fun s => Some (Z.of_nat (String.length s)))
           (fun s => Some (Z.of_nat (String.length s))) (fun a b => Some (a + b)%Z)
           "1"%string "02"%string "003"%string eq_refl eq_refl eq_refl).
Defined.

Lemma parse_segments_block_sets_own_entry_witness :
  exists split_points,
    parse_segments_from Z (fun _ => Some 0%Z) (fun _ => Some 0%Z)
      (fun a b => Some (a + b)%Z) (fun x => (x * 1000)%Z) (fun l => l)
      (<["talk"%string := [1%Z]]> ∅)
      ["[talk]"%string; "0-1"%string; "1-2"%string; "2-3"%string; "3-4"%string;
       "4-5"%string]
    = Returned (<["talk"%string := split_points]> (<["talk"%string := [1%Z]]> ∅)).
Proof.
  destruct (parse_segments_block_sets_own_entry Z (fun _ => Some 0%Z) (fun _ => Some 0%Z)
              (fun a b => Some (a + b)%Z) (fun x => (x * 1000)%Z) (fun l => l)
              ["[talk]"%string; "0-1"%string; "1-2"%string; "2-3"%string; "3-4"%string;
               "4-5"%string]
              "[talk]"%string "talk"%string ∅
              (<["talk"%string := [0; 0; 0; 0; 0; 0; 0; 0]%Z]> ∅)
              eq_refl eq_refl eq_refl eq_refl) as (sp & _ & _ & Hany).
  exists sp. apply Hany.
Defined.
